(** * The storage layer of nmath (math/src/storage) in Rocq

    A shallow embedding of the fixed-layout buffers [Entry], [ArrayStorage],
    [Join], of [VecStorage], of the views [Ref] and [Mut], of the staged
    initializer [UninitStackStorage], and of the layout operations
    [transmute_buffer], [transmute_array] and [merge].

    Memory is modelled at the level of elements: the in-memory
    representation of a fixed-layout value is the flat list of its elements
    in address order (as given by the [repr] attributes of the types), and
    an uninitialized slot is [None]. *)

From stdpp Require Import base list strings.
Set Warnings "-register-all".

(** Outcome of a Rust computation: a value, a panic with its message, or
    undefined behaviour (reading uninitialized or out-of-bounds memory). *)
Inductive res (A : Type) : Type :=
  | Ok (a : A)
  | Panic (msg : string)
  | Undef.
Arguments Ok {A} a.
Arguments Panic {A} msg.
Arguments Undef {A}.

(** [usize::MAX], only used by [unwrap] on a [None] size (a thunk, so
    that evaluation never unfolds the unary numeral). *)
Definition usize_MAX (_ : unit) : nat := Nat.pred (Nat.pow 2 64).

(** The fixed-layout ("stack") buffer types: [Entry<T>],
    [ArrayStorage<S, N>] and [Join<A, B>]. *)
Inductive shape : Type :=
  | Entry
  | ArrayStorage (s : shape) (N : nat)
  | Join (a b : shape).

(** [const fn times] of impls.rs. *)
Definition times (size : option nat) (n : nat) : option nat :=
  match size with Some u => Some (u * n) | None => None end.

(** [const fn add] of impls.rs. *)
Definition add (a b : option nat) : option nat :=
  match a, b with Some a, Some b => Some (a + b) | _, _ => None end.

(** [Storage::SIZE] of each stack type. *)
Fixpoint SIZE (sh : shape) : option nat :=
  match sh with
  | Entry => Some 1
  | ArrayStorage s N => times (SIZE s) N
  | Join a b => add (SIZE a) (SIZE b)
  end.

(** [const fn unwrap] of mod.rs. *)
Definition unwrap (size : option nat) : nat :=
  match size with Some u => u | None => usize_MAX tt end.

(** [StackStorage::SIZE_U]. *)
Definition SIZE_U (sh : shape) : nat := unwrap (SIZE sh).

Section Storage.
Context {T : Type}.

(** Values of the stack types: [Entry(x)], [ArrayStorage([s; N])],
    [Join(a, b)]. *)
Inductive val : Type :=
  | VEntry (x : T)
  | VArray (vs : list val)
  | VJoin (a b : val).

(** A value inhabits a stack type. *)
Fixpoint has_shape (sh : shape) (v : val) : bool :=
  match sh, v with
  | Entry, VEntry _ => true
  | ArrayStorage s N, VArray vs =>
      bool_decide (length vs = N) && forallb (has_shape s) vs
  | Join a b, VJoin x y => has_shape a x && has_shape b y
  | _, _ => false
  end.

(** In-memory representation, element by element in address order:
    [Entry] is [repr(transparent)], [ArrayStorage] is [repr(transparent)]
    over [[S; N]], [Join] is [repr(C)] with field [A] first. *)
Fixpoint repr (v : val) : list T :=
  match v with
  | VEntry x => [x]
  | VArray vs => concat (map repr vs)
  | VJoin a b => repr a ++ repr b
  end.

(** The [IntoIterator] impls: [iter::once] for [Entry], the flattened
    [into_iter] of the sub-buffers for [ArrayStorage], [chain] for [Join]. *)
Fixpoint into_iter (v : val) : list T :=
  match v with
  | VEntry x => [x]
  | VArray vs => concat (map into_iter vs)
  | VJoin a b => into_iter a ++ into_iter b
  end.

(** Drop glue: the single field of [Entry], the array elements in index
    order, the fields of [Join] in declaration order. *)
Fixpoint drop_glue (v : val) : list T :=
  match v with
  | VEntry x => [x]
  | VArray vs => concat (map drop_glue vs)
  | VJoin a b => drop_glue a ++ drop_glue b
  end.

(** Splitting memory into [n] consecutive blocks of [k] elements (the
    elements of an array [[S; N]]). *)
Fixpoint chunks (k n : nat) (mem : list T) : list (list T) :=
  match n with
  | 0 => []
  | S n' => take k mem :: chunks k n' (drop k mem)
  end.

(** Reading a value of type [sh] from memory ([mem::transmute_copy]);
    [None] when the memory ends before the value does. *)
Fixpoint reinterpret (sh : shape) (mem : list T) : option val :=
  match sh with
  | Entry => match mem with x :: _ => Some (VEntry x) | [] => None end
  | ArrayStorage s N =>
      VArray <$> mapM (reinterpret s) (chunks (SIZE_U s) N mem)
  | Join a b =>
      match reinterpret a (take (SIZE_U a) mem),
            reinterpret b (drop (SIZE_U a) mem) with
      | Some x, Some y => Some (VJoin x y)
      | _, _ => None
      end
  end.

(** ** [UninitStackStorage<S>] *)

(** The backing [MaybeUninit<S>], slot by slot ([None] is uninitialized),
    and the number of elements set so far. *)
Record uninit : Type := {
  storage : list (option T);
  len : nat
}.

(** [UninitStackStorage::new]. *)
Definition uninit_new (sh : shape) : uninit :=
  {| storage := replicate (SIZE_U sh) None; len := 0 |}.

(** [UninitStackStorage::push]: the write at offset [self.len] happens only
    below [S::SIZE_U]; the panic leaves [self] as it is; [self.len += 1]
    follows the [if]. The returned state is [self] after the call (also on
    the panic path, where unwinding leaves it to its owner). *)
Definition push (sh : shape) (value : T) (u : uninit) : uninit * res unit :=
  if decide (len u < SIZE_U sh) then
    let u' := {| storage := <[len u := Some value]> (storage u); len := len u |} in
    ({| storage := storage u'; len := len u' + 1 |}, Ok tt)
  else (u, Panic "stack storage full").

(** Reading every slot of the backing memory as initialized. *)
Definition read_all (slots : list (option T)) : res (list T) :=
  match mapM id slots with Some mem => Ok mem | None => Undef end.

(** [UninitStackStorage::init]: [transmute_copy] of the whole storage. *)
Definition init (sh : shape) (u : uninit) : res val :=
  if decide (len u = SIZE_U sh) then
    match read_all (storage u) with
    | Ok mem => match reinterpret sh mem with Some v => Ok v | None => Undef end
    | Panic m => Panic m
    | Undef => Undef
    end
  else Panic "stack storage not full".

(** [Extend for UninitStackStorage]: [push] every element, stopping at the
    first panic. *)
Fixpoint extend (sh : shape) (iter : list T) (u : uninit) : uninit * res unit :=
  match iter with
  | [] => (u, Ok tt)
  | v :: iter' =>
      let '(u', r) := push sh v u in
      match r with
      | Ok _ => extend sh iter' u'
      | Panic m => (u', Panic m)
      | Undef => (u', Undef)
      end
  end.

(** [Drop for UninitStackStorage]: for [i] in [0..self.len], drop the
    element at [ptr.offset(i)]. The result lists the dropped slots with
    their elements; reading a slot that holds no element is undefined. *)
Fixpoint drop_slots (idx : list nat) (slots : list (option T)) : res (list (nat * T)) :=
  match idx with
  | [] => Ok []
  | i :: idx' =>
      match slots !! i with
      | Some (Some x) =>
          match drop_slots idx' slots with
          | Ok l => Ok ((i, x) :: l)
          | Panic m => Panic m
          | Undef => Undef
          end
      | _ => Undef
      end
  end.

Definition uninit_drop (u : uninit) : res (list (nat * T)) :=
  drop_slots (seq 0 (len u)) (storage u).

(** The builder once the elements [xs] have been written, from the left,
    into a fresh [UninitStackStorage<sh>]. *)
Definition filled (sh : shape) (xs : list T) : uninit :=
  {| storage := map Some xs ++ replicate (SIZE_U sh - length xs) None;
     len := length xs |}.

(** ** Construction from a sequence *)

(** [StackStorage::_from_iter]: collect into an [UninitStackStorage],
    then [init]. *)
Definition stack_from_iter (sh : shape) (iter : list T) : res val :=
  let '(u, r) := extend sh iter (uninit_new sh) in
  match r with
  | Ok _ => init sh u
  | Panic m => Panic m
  | Undef => Undef
  end.

(** [FromIterator for Entry]: [Self(iter.into_iter().next().unwrap())]. *)
Definition entry_from_iter (iter : list T) : res val :=
  match iter with
  | x :: _ => Ok (VEntry x)
  | [] => Panic "called `Option::unwrap()` on a `None` value"
  end.

(** The [FromIterator] impl of each stack type: [Entry] has its own,
    [ArrayStorage] and [Join] call [Self::_from_iter]. *)
Definition from_iter (sh : shape) (iter : list T) : res val :=
  match sh with
  | Entry => entry_from_iter iter
  | ArrayStorage _ _ | Join _ _ => stack_from_iter sh iter
  end.

(** ** Indexing *)

(** [StackStorage::_borrow]: the slice of [SIZE_U] elements at [self]. *)
Definition borrow (sh : shape) (v : val) : list T := take (SIZE_U sh) (repr v).

(** [Storage::get] of the stack types: [Entry] answers at index 0 only;
    [ArrayStorage] and [Join] use [_get] on the borrowed slice. *)
Definition stack_get (sh : shape) (v : val) (i : nat) : option T :=
  match sh with
  | Entry => match v with VEntry x => if decide (i = 0) then Some x else None | _ => None end
  | ArrayStorage _ _ | Join _ _ => borrow sh v !! i
  end.

(** [Storage::len] of the stack types. *)
Definition stack_len (sh : shape) : nat :=
  match sh with
  | Entry => 1
  | ArrayStorage _ N => N
  | Join _ _ => SIZE_U sh
  end.

(** Every buffer type: a stack type, [VecStorage<S>] (its [Vec<S>] of
    chunks), [Ref] and [Mut] around another buffer. *)
Inductive buffer : Type :=
  | Stack (sh : shape) (v : val)
  | VecStorage (s : shape) (chunks : list val)
  | Ref (b : buffer)
  | Mut (b : buffer).

Definition vec_borrow (s : shape) (cs : list val) : list T :=
  take (length cs * SIZE_U s) (concat (map repr cs)).

(** The slice [Borrow<[T]>] gives. *)
Fixpoint as_slice (b : buffer) : list T :=
  match b with
  | Stack sh v => borrow sh v
  | VecStorage s cs => vec_borrow s cs
  | Ref b | Mut b => as_slice b
  end.

Fixpoint get (b : buffer) (i : nat) : option T :=
  match b with
  | Stack sh v => stack_get sh v i
  | VecStorage s cs => vec_borrow s cs !! i
  | Ref b | Mut b => get b i
  end.

Fixpoint blen (b : buffer) : nat :=
  match b with
  | Stack sh _ => stack_len sh
  | VecStorage s cs => length (vec_borrow s cs)
  | Ref b | Mut b => blen b
  end.

(** The [Index] impls: [_index] on the slice for the owned types,
    [&self.0[index]] for [Ref] and [Mut]. *)
Fixpoint index (b : buffer) (i : nat) : res T :=
  match b with
  | Ref b | Mut b => index b i
  | _ =>
      match as_slice b !! i with
      | Some x => Ok x
      | None => Panic "index out of bounds"
      end
  end.

Fixpoint wf_buffer (b : buffer) : bool :=
  match b with
  | Stack sh v => has_shape sh v
  | VecStorage s cs => forallb (has_shape s) cs
  | Ref b | Mut b => wf_buffer b
  end.

End Storage.
Arguments val T : clear implicits.
Arguments uninit T : clear implicits.
Arguments buffer T : clear implicits.

Section Growable.
Context {T : Type}.

(** ** [FromIterator for VecStorage<S>] *)

(** The inner loop [for _ in 1..S::SIZE_U { uninit.push(iter.next()
    .expect("iterator could not fill inner type")) }], run [k] times; it
    returns the rest of the iterator, the builder and the outcome. *)
Fixpoint fill (s : shape) (k : nat) (iter : list T) (u : uninit T)
  : list T * uninit T * res unit :=
  match k with
  | 0 => (iter, u, Ok tt)
  | S k' =>
      match iter with
      | [] => (iter, u, Panic "iterator could not fill inner type")
      | x :: iter' =>
          let '(u', r) := push s x u in
          match r with
          | Ok _ => fill s k' iter' u'
          | Panic m => (iter', u', Panic m)
          | Undef => (iter', u', Undef)
          end
      end
  end.

(** The outer [while let Some(val) = iter.next()] loop; each round pushes
    [val], fills the rest of the chunk, [init]s it and pushes the chunk onto
    [vec]. Every round consumes at least one element, so [fuel] rounds with
    [fuel] above the length of the iterator always reach its end. *)
Fixpoint vec_loop (s : shape) (fuel : nat) (iter : list T) : list T * res (list (val T)) :=
  match fuel with
  | 0 => (iter, Undef)
  | S fuel' =>
      match iter with
      | [] => (iter, Ok [])
      | v :: iter1 =>
          let '(u1, r1) := push s v (uninit_new s) in
          match r1 with
          | Ok _ =>
              let '(iter2, u2, r2) := fill s (SIZE_U s - 1) iter1 u1 in
              match r2 with
              | Ok _ =>
                  match init s u2 with
                  | Ok c =>
                      let '(iter3, r3) := vec_loop s fuel' iter2 in
                      (iter3, match r3 with
                              | Ok cs => Ok (c :: cs)
                              | Panic m => Panic m
                              | Undef => Undef
                              end)
                  | Panic m => (iter2, Panic m)
                  | Undef => (iter2, Undef)
                  end
              | Panic m => (iter2, Panic m)
              | Undef => (iter2, Undef)
              end
          | Panic m => (iter1, Panic m)
          | Undef => (iter1, Undef)
          end
      end
  end.

(** [VecStorage::from_iter]: the rest of the iterator and the chunks. *)
Definition vec_from_iter (s : shape) (iter : list T) : list T * res (list (val T)) :=
  if decide (SIZE_U s = 0) then (iter, Ok [])
  else vec_loop s (S (length iter)) iter.

(** ** Merging *)

(** [JoinStorage::merge] for [Join] is [Join::new(a, b)], i.e. [Self(a, b)]. *)
Definition merge (a b : val T) : val T := VJoin a b.

End Growable.

(** ** Layout: [mem::size_of] and [mem::align_of] *)

Section Layout.
(** Size and alignment of the element type [T]. *)
Variables (size_of_T align_of_T : nat).

(** Rounding [x] up to a multiple of [a]. *)
Definition round_up (x a : nat) : nat :=
  if decide (a = 0) then x else ((x + a - 1) / a) * a.

(** [(size_of, align_of)] of each stack type: [Entry] and [ArrayStorage]
    are [repr(transparent)] (over [T] and [[S; N]]), [Join] is [repr(C)]. *)
Fixpoint layout (sh : shape) : nat * nat :=
  match sh with
  | Entry => (size_of_T, align_of_T)
  | ArrayStorage s N => let '(sz, al) := layout s in (N * sz, al)
  | Join a b =>
      let '(sa, aa) := layout a in
      let '(sb, ab) := layout b in
      let al := Nat.max aa ab in
      (round_up (round_up sa ab + sb) al, al)
  end.

Definition size_of (sh : shape) : nat := fst (layout sh).
Definition align_of (sh : shape) : nat := snd (layout sh).

(** [StackStorage::transmute_buffer] from [src] to [dst]: the three
    [assert_eq!]s, then [transmute_copy(&ManuallyDrop::new(self))]. The
    second component lists the elements dropped during the call: on a
    panic [self] is dropped while unwinding; [ManuallyDrop] keeps it from
    being dropped otherwise. *)
Definition transmute_buffer {T : Type} (src dst : shape) (v : val T) : res (val T) * list T :=
  if decide (SIZE src = SIZE dst) then
    if decide (size_of src = size_of dst) then
      if decide (align_of src = align_of dst) then
        (match reinterpret dst (repr v) with Some w => Ok w | None => Undef end, [])
      else (Panic "assertion `left == right` failed", drop_glue v)
    else (Panic "assertion `left == right` failed", drop_glue v)
  else (Panic "assertion `left == right` failed", drop_glue v).

(** [StackStorage::transmute_array::<N>]. *)
Definition transmute_array {T : Type} (N : nat) (src : shape) (v : val T) : res (val T) * list T :=
  transmute_buffer src (ArrayStorage Entry N) v.

End Layout.

(** ** [StorageMut::swap] *)

Section Swap.
Context {T : Type}.

(** [ptr::swap(a, b)]: copy [*a] to a temporary, copy [*b] to [*a], copy
    the temporary to [*b] (the two places may overlap). *)
Definition ptr_swap (mem : list T) (a b : nat) : res (list T) :=
  match mem !! a with
  | None => Undef
  | Some tmp =>
      match mem !! b with
      | None => Undef
      | Some y => Ok (<[b := tmp]> (<[a := y]> mem))
      end
  end.

(** The default [StorageMut::swap] over a storage whose [get_mut] hands
    out the addresses (in the memory [mem]) of its elements. *)
Definition swap (get_mut : nat -> option nat) (mem : list T) (i j : nat) : res (list T) :=
  match get_mut i with
  | None => Panic "called `Option::unwrap()` on a `None` value"
  | Some a =>
      match get_mut j with
      | None => Panic "called `Option::unwrap()` on a `None` value"
      | Some b => ptr_swap mem a b
      end
  end.

(** The element [get_mut] reaches at an index. *)
Definition elem (get_mut : nat -> option nat) (mem : list T) (k : nat) : option T :=
  match get_mut k with Some a => mem !! a | None => None end.

End Swap.

(** [get_mut] of the buffer types, as an address into the buffer's own
    memory: [Entry] answers at index 0 only, the others use [_get_mut] on
    the borrowed slice, [Mut] forwards. *)
Fixpoint get_mut_addr {T : Type} (b : buffer T) (i : nat) : option nat :=
  match b with
  | Stack Entry _ => if decide (i = 0) then Some 0 else None
  | Stack _ _ | VecStorage _ _ =>
      if decide (i < length (as_slice b)) then Some i else None
  | Ref b | Mut b => get_mut_addr b i
  end.

(** ** More of the storage API *)

Section Api.
Context {T : Type}.

(** [Storage::SIZE] of every buffer type: [None] for [VecStorage], the
    target's for [Ref] and [Mut]. *)
Fixpoint buffer_SIZE (b : buffer T) : option nat :=
  match b with
  | Stack sh _ => SIZE sh
  | VecStorage _ _ => None
  | Ref b | Mut b => buffer_SIZE b
  end.

(** [Size::from_usize]: a static size must equal [value]. *)
Definition size_from_usize (SIZE : option nat) (value : nat) : res nat :=
  match SIZE with
  | Some size => if decide (size <> value) then Panic "size mismatch" else Ok value
  | None => Ok value
  end.

(** [Storage::size]: [Size::from_usize(self.len())]. *)
Definition storage_size (b : buffer T) : res nat :=
  size_from_usize (buffer_SIZE b) (blen b).

(** [Iter::next]: [get] at the current index, then the index moves on
    (also past the end). *)
Definition iter_next (b : buffer T) (index : nat) : option T * nat :=
  (get b index, S index).

(** The results of [n] successive calls of [next], from [index]. *)
Fixpoint iter_calls (b : buffer T) (index n : nat) : list (option T) :=
  match n with
  | 0 => []
  | S n' => let '(x, index') := iter_next b index in x :: iter_calls b index' n'
  end.

(** [IterMut::next], on the places [get_mut] hands out. *)
Definition iter_mut_next (b : buffer T) (index : nat) : option nat * nat :=
  (get_mut_addr b index, S index).

Fixpoint iter_mut_calls (b : buffer T) (index n : nat) : list (option nat) :=
  match n with
  | 0 => []
  | S n' => let '(a, index') := iter_mut_next b index in a :: iter_mut_calls b index' n'
  end.

(** A [for] loop over an iterator: the items up to the first [None]. *)
Fixpoint take_some {A : Type} (l : list (option A)) : list A :=
  match l with
  | Some x :: l' => x :: take_some l'
  | _ => []
  end.

(** [Default for ArrayStorage<S, N>]:
    [iter::repeat(Default::default()).collect()]. The iterator is endless;
    [array_default s N d m] runs [_from_iter] on its first [m] items. *)
Definition array_default (s : shape) (N : nat) (d : T) (m : nat) : res (val T) :=
  from_iter (ArrayStorage s N) (replicate m d).


(** [Extend for UninitStackStorage] over an iterator whose items are
    computed as they are pulled, and may panic. *)
Fixpoint extend_lazy (sh : shape) (items : list (res T)) (u : uninit T) : uninit T * res unit :=
  match items with
  | [] => (u, Ok tt)
  | it :: items' =>
      match it with
      | Ok v =>
          let '(u', r) := push sh v u in
          match r with
          | Ok _ => extend_lazy sh items' u'
          | Panic m => (u', Panic m)
          | Undef => (u', Undef)
          end
      | Panic m => (u, Panic m)
      | Undef => (u, Undef)
      end
  end.

(** [StackStorage::_from_iter] over such an iterator. *)
Definition stack_from_iter_lazy (sh : shape) (items : list (res T)) : res (val T) :=
  let '(u, r) := extend_lazy sh items (uninit_new sh) in
  match r with
  | Ok _ => init sh u
  | Panic m => Panic m
  | Undef => Undef
  end.

End Api.

(** ** Permutations (permutation.rs), over [usize] entries *)

(** The loop of [Permutation::new]: for each entry [v],
    [checked.get_mut(v)?], [None] on an entry already seen, then mark it. *)
Fixpoint new_loop (checked : list bool) (vs : list nat) : option unit :=
  match vs with
  | [] => Some tt
  | v :: vs' =>
      match checked !! v with
      | None => None
      | Some true => None
      | Some false => new_loop (<[v := true]> checked) vs'
      end
  end.

(** [Permutation::new(s)]: [checked] has [s.len()] entries, the loop runs
    over [s.iter()]; [get] is [None] from the slice's length on
    ([get_slice_bound]), so [length (as_slice s) + 1] calls of [next]
    reach the end of the iterator. *)
Definition perm_new (s : buffer nat) : option (buffer nat) :=
  match new_loop (replicate (blen s) false)
                 (take_some (iter_calls s 0 (S (length (as_slice s))))) with
  | Some _ => Some s
  | None => None
  end.

(** [Permutation::identity(size)]: [(0..size.value()).collect()], for
    [PermutationS<N>] (storage [ArrayStorageE<usize, N>]). *)
Definition identity_s (N size : nat) : res (buffer nat) :=
  match from_iter (ArrayStorage Entry N) (seq 0 size) with
  | Ok v => Ok (Stack (ArrayStorage Entry N) v)
  | Panic m => Panic m
  | Undef => Undef
  end.

(** The same for [PermutationD] (storage [VecStorageE<usize>]). *)
Definition identity_d (size : nat) : res (buffer nat) :=
  match snd (vec_from_iter Entry (seq 0 size)) with
  | Ok cs => Ok (VecStorage Entry cs)
  | Panic m => Panic m
  | Undef => Undef
  end.

(** [p[q[idx]]]: [Index for Permutation] forwards to the storage. *)
Definition compose_entry (p q : buffer nat) (idx : nat) : res nat :=
  match index q idx with
  | Ok j => index p j
  | Panic m => Panic m
  | Undef => Undef
  end.

(** [Permutation::compose(p, q)] into [PermutationS<N>]:
    [(0..p.len()).map(|idx| p[q[idx]]).collect()]. *)
Definition compose_s (N : nat) (p q : buffer nat) : res (buffer nat) :=
  match stack_from_iter_lazy (ArrayStorage Entry N)
          (map (compose_entry p q) (seq 0 (blen p))) with
  | Ok v => Ok (Stack (ArrayStorage Entry N) v)
  | Panic m => Panic m
  | Undef => Undef
  end.

(** The loop of [Permutation::compose_mut_rhs(self, p)]: [*v = self[*v]]
    for each place [v] that [p.iter_mut()] yields, in [p]'s memory. *)
Fixpoint compose_mut_loop (self : buffer nat) (places : list nat) (mem : list nat)
  : res (list nat) :=
  match places with
  | [] => Ok mem
  | a :: places' =>
      match mem !! a with
      | None => Undef
      | Some v =>
          match index self v with
          | Ok w => compose_mut_loop self places' (<[a := w]> mem)
          | Panic m => Panic m
          | Undef => Undef
          end
      end
  end.

(** [Permutation::compose_mut_rhs]: the new contents of [p]'s slice. As
    for [perm_new], [length (as_slice p) + 1] calls reach the end of
    [iter_mut]. *)
Definition compose_mut_rhs (self p : buffer nat) : res (list nat) :=
  compose_mut_loop self (take_some (iter_mut_calls p 0 (S (length (as_slice p)))))
    (as_slice p).

(** [enum Parity] and [Parity::flip]. *)
Module Parity.
Inductive Parity : Type := Even | Odd.
Definition flip (p : Parity) : Parity :=
  match p with Even => Odd | Odd => Even end.
End Parity.

(** The [while j != i] loop of [Permutation::parity]: [checked[j] = true;
    j = self[j]; len += 1]. It returns the marks and the length of the
    cycle through [i]. The values [j] take are indices of [checked], so
    if the loop has not ended after [length checked + 1] tests of
    [j != i] it never ends: [None] (out of [fuel]) stands for that. *)
Fixpoint parity_walk (self : buffer nat) (i fuel : nat) (checked : list bool) (j len : nat)
  : option (res (list bool * nat)) :=
  match fuel with
  | 0 => None
  | S fuel' =>
      if decide (j = i) then Some (Ok (checked, len))
      else
        match checked !! j with
        | None => Some (Panic "index out of bounds")
        | Some _ =>
            match index self j with
            | Ok j' => parity_walk self i fuel' (<[j := true]> checked) j' (S len)
            | Panic m => Some (Panic m)
            | Undef => Some Undef
            end
        end
  end.

(** The [for i in 0..self.len()] loop of [Permutation::parity]. *)
Fixpoint parity_loop (self : buffer nat) (is : list nat) (checked : list bool)
  (parity : Parity.Parity) : option (res Parity.Parity) :=
  match is with
  | [] => Some (Ok parity)
  | i :: is' =>
      match checked !! i with
      | None => Some (Panic "index out of bounds")
      | Some true => parity_loop self is' checked parity
      | Some false =>
          match index self i with
          | Ok j =>
              match parity_walk self i (S (length checked)) (<[i := true]> checked) j 1 with
              | Some (Ok (checked', len)) =>
                  parity_loop self is' checked'
                    (if decide (len mod 2 = 0) then Parity.flip parity else parity)
              | Some (Panic m) => Some (Panic m)
              | Some Undef => Some Undef
              | None => None
              end
          | Panic m => Some (Panic m)
          | Undef => Some Undef
          end
      end
  end.

(** [Permutation::parity]; [None] when it does not terminate. *)
Definition parity (self : buffer nat) : option (res Parity.Parity) :=
  parity_loop self (seq 0 (blen self)) (replicate (blen self) false) Parity.Even.

(** ** Concrete buffers *)

(** The test value [a] of impls.rs: [ArrayStorage([ArrayStorage([Entry(1),
    Entry(2)])])], of type [ArrayStorage<ArrayStorage<Entry<_>, 2>, 1>]. *)
Definition nested_a : buffer nat :=
  Stack (ArrayStorage (ArrayStorage Entry 2) 1) (VArray [VArray [VEntry 1; VEntry 2]]).

(** An [ArrayStorage<ArrayStorage<Entry<_>, 0>, 3>]. *)
Definition empty_rows : buffer nat :=
  Stack (ArrayStorage (ArrayStorage Entry 0) 3) (VArray [VArray []; VArray []; VArray []]).

(** An [ArrayStorage<Entry<_>, 3>] holding [1, 2, 3]. *)
Definition swap_buf : buffer nat :=
  Stack (ArrayStorage Entry 3) (VArray [VEntry 1; VEntry 2; VEntry 3]).

(** * Properties *)

(** ** Sizes *)

Lemma SIZE_is_Some sh : exists n, SIZE sh = Some n.
Proof.
  induction sh as [|s [n Hn] N|a [na Ha] b [nb Hb]]; simpl; eauto.
  - rewrite Hn; simpl; eauto.
  - rewrite Ha, Hb; simpl; eauto.
Qed.

Lemma SIZE_SIZE_U sh : SIZE sh = Some (SIZE_U sh).
Proof. unfold SIZE_U. destruct (SIZE_is_Some sh) as [n ->]. reflexivity. Qed.

Lemma SIZE_U_Array s N : SIZE_U (ArrayStorage s N) = SIZE_U s * N.
Proof. unfold SIZE_U at 1; simpl. rewrite SIZE_SIZE_U. reflexivity. Qed.

Lemma SIZE_U_Join a b : SIZE_U (Join a b) = SIZE_U a + SIZE_U b.
Proof. unfold SIZE_U at 1; simpl. rewrite !SIZE_SIZE_U. reflexivity. Qed.

Lemma SIZE_U_inj sh1 sh2 : SIZE sh1 = SIZE sh2 <-> SIZE_U sh1 = SIZE_U sh2.
Proof.
  rewrite !SIZE_SIZE_U. split; [congruence|]. intros ->. reflexivity.
Qed.

Section Values.
Context {T : Type}.
Implicit Types (v : val T) (xs mem : list T).

Lemma has_shape_repr_length sh v :
  has_shape sh v = true -> length (repr v) = SIZE_U sh.
Proof.
  revert v; induction sh as [|s IH N|a IHa b IHb]; intros [x|vs|x y] H;
    simpl in H; try discriminate.
  - reflexivity.
  - rewrite SIZE_U_Array. apply andb_prop in H as [Hl Hf].
    apply bool_decide_eq_true in Hl. subst N. simpl.
    induction vs as [|w vs IHvs]; simpl; [lia|].
    simpl in Hf. apply andb_prop in Hf as [Hw Hf].
    rewrite length_app, IH, IHvs by done. lia.
  - apply andb_prop in H as [Ha Hb]. rewrite SIZE_U_Join; simpl.
    rewrite length_app, IHa, IHb by done. reflexivity.
Qed.

(** The three traversals of a value (layout, [IntoIterator], drop glue)
    visit the elements in the same order. *)
Lemma has_shape_traversals sh v :
  has_shape sh v = true -> into_iter v = repr v /\ drop_glue v = repr v.
Proof.
  revert v; induction sh as [|s IH N|a IHa b IHb]; intros [x|vs|x y] H;
    simpl in H; try discriminate.
  - done.
  - apply andb_prop in H as [_ Hf]. simpl.
    induction vs as [|w vs IHvs]; simpl; [done|].
    simpl in Hf. apply andb_prop in Hf as [Hw Hf].
    destruct (IH w Hw) as [-> ->]. destruct (IHvs Hf) as [-> ->]. done.
  - apply andb_prop in H as [Ha Hb]. simpl.
    destruct (IHa x Ha) as [-> ->]. destruct (IHb y Hb) as [-> ->]. done.
Qed.

(** Reading a value of type [sh] from exactly [SIZE_U sh] elements of
    memory gives a value of that type whose representation is that
    memory. *)
Lemma reinterpret_ok sh mem :
  length mem = SIZE_U sh ->
  exists v, reinterpret sh mem = Some v /\ has_shape sh v = true /\ repr v = mem.
Proof.
  revert mem; induction sh as [|s IH N|a IHa b IHb]; intros mem Hlen.
  - destruct mem as [|x [|]]; simpl in Hlen; try discriminate.
    exists (VEntry x). done.
  - rewrite SIZE_U_Array in Hlen. simpl.
    assert (Hc : exists vs, mapM (reinterpret s) (chunks (SIZE_U s) N mem) = Some vs
      /\ length vs = N /\ forallb (has_shape s) vs = true /\ concat (map repr vs) = mem).
    { revert mem Hlen; induction N as [|N IHN]; intros mem Hlen.
      - exists []. destruct mem; simpl in *; [done|lia].
      - destruct (IH (take (SIZE_U s) mem)) as (w & Hw & Hsw & Hrw).
        { rewrite length_take. lia. }
        destruct (IHN (drop (SIZE_U s) mem)) as (ws & Hws & Hl & Hf & Hr).
        { rewrite length_drop. lia. }
        exists (w :: ws). simpl. rewrite Hw, Hws. simpl.
        rewrite Hsw, Hf, Hrw, Hr, take_drop. split; [done|]. split; [lia|]. done. }
    destruct Hc as (vs & Hvs & Hl & Hf & Hr).
    exists (VArray vs). rewrite Hvs. simpl. rewrite Hf, Hr.
    rewrite bool_decide_eq_true_2 by done. done.
  - rewrite SIZE_U_Join in Hlen. simpl.
    destruct (IHa (take (SIZE_U a) mem)) as (x & Hx & Hsx & Hrx).
    { rewrite length_take. lia. }
    destruct (IHb (drop (SIZE_U a) mem)) as (y & Hy & Hsy & Hry).
    { rewrite length_drop. lia. }
    rewrite Hx, Hy. exists (VJoin x y). simpl. rewrite Hsx, Hsy, Hrx, Hry, take_drop.
    done.
Qed.

(** Every stack type reads its elements off its representation. *)
Lemma stack_get_repr sh v i :
  has_shape sh v = true -> stack_get sh v i = repr v !! i.
Proof.
  intros H. destruct sh as [|s N|a b].
  - destruct v as [x| |]; try discriminate. simpl.
    destruct (decide (i = 0)) as [->|Hi]; [done|]. destruct i; [lia|]. done.
  - simpl. unfold borrow. rewrite take_ge; [done|].
    rewrite (has_shape_repr_length _ _ H). lia.
  - simpl. unfold borrow. rewrite take_ge; [done|].
    rewrite (has_shape_repr_length _ _ H). lia.
Qed.

End Values.

(** ** The staged initializer *)

Section Builder.
Context {T : Type}.
Implicit Types (v : val T) (xs ys mem : list T).

Lemma uninit_new_filled sh : uninit_new sh = filled (T:=T) sh [].
Proof. unfold uninit_new, filled. simpl. rewrite Nat.sub_0_r. reflexivity. Qed.

Lemma push_filled sh xs x :
  length xs < SIZE_U sh -> push sh x (filled sh xs) = (filled sh (xs ++ [x]), Ok tt).
Proof.
  intros Hlt. unfold push, filled; simpl.
  rewrite decide_True by lia. f_equal. f_equal.
  - rewrite insert_app_r_alt by (rewrite length_map; lia).
    rewrite length_map, Nat.sub_diag, length_app; simpl.
    destruct (SIZE_U sh - length xs) as [|k] eqn:Hk; [lia|].
    replace (SIZE_U sh - (length xs + 1)) with k by lia.
    rewrite map_app, <- app_assoc. reflexivity.
  - rewrite length_app. reflexivity.
Qed.

Lemma push_full sh (u : uninit T) x :
  SIZE_U sh <= len u -> push sh x u = (u, Panic "stack storage full").
Proof. intros Hle. unfold push. rewrite decide_False by lia. reflexivity. Qed.

Lemma extend_filled sh xs ys :
  length (xs ++ ys) <= SIZE_U sh ->
  extend sh ys (filled sh xs) = (filled sh (xs ++ ys), Ok tt).
Proof.
  revert xs; induction ys as [|y ys IH]; intros xs Hle; simpl.
  - rewrite app_nil_r. reflexivity.
  - rewrite length_app in Hle; simpl in Hle.
    rewrite push_filled by lia. rewrite IH.
    + rewrite <- app_assoc. reflexivity.
    + rewrite !length_app; simpl. lia.
Qed.

Lemma extend_overflow sh xs ys :
  length xs <= SIZE_U sh < length (xs ++ ys) ->
  exists u, extend sh ys (filled sh xs) = (u, Panic "stack storage full").
Proof.
  revert xs; induction ys as [|y ys IH]; intros xs [Hle Hlt].
  - rewrite app_nil_r in Hlt. lia.
  - simpl. destruct (decide (length xs < SIZE_U sh)) as [Hxs|Hxs].
    + rewrite push_filled by done. apply IH.
      rewrite !length_app in *; simpl in *. lia.
    + rewrite push_full by (simpl; lia). eauto.
Qed.

Lemma read_all_filled sh xs :
  length xs = SIZE_U sh -> read_all (storage (filled sh xs)) = Ok xs.
Proof.
  intros Hl. unfold read_all, filled; simpl.
  rewrite Hl, Nat.sub_diag, app_nil_r.
  assert (H : forall l : list T, mapM id (map Some l) = Some l).
  { induction l as [|x l IH]; [done|]. simpl. rewrite IH. done. }
  rewrite H. reflexivity.
Qed.

Lemma init_filled sh xs :
  length xs = SIZE_U sh ->
  exists v, init sh (filled sh xs) = Ok v /\ has_shape sh v = true /\ repr v = xs.
Proof.
  intros Hl. unfold init. rewrite decide_True by (simpl; lia).
  rewrite read_all_filled by done.
  destruct (reinterpret_ok sh xs Hl) as (v & -> & Hs & Hr). eauto.
Qed.

Lemma init_short sh xs :
  length xs < SIZE_U sh -> init sh (filled sh xs) = Panic "stack storage not full".
Proof. intros Hl. unfold init. rewrite decide_False by (simpl; lia). reflexivity. Qed.

(** [_from_iter] at each length of the input. *)
Lemma stack_from_iter_exact sh xs :
  length xs = SIZE_U sh ->
  exists v, stack_from_iter sh xs = Ok v /\ has_shape sh v = true /\ repr v = xs.
Proof.
  intros Hl. unfold stack_from_iter. rewrite uninit_new_filled.
  rewrite extend_filled by (simpl; lia). simpl. apply init_filled. done.
Qed.

Lemma stack_from_iter_short sh xs :
  length xs < SIZE_U sh -> stack_from_iter sh xs = Panic "stack storage not full".
Proof.
  intros Hl. unfold stack_from_iter. rewrite uninit_new_filled.
  rewrite extend_filled by (simpl; lia). simpl. apply init_short. done.
Qed.

Lemma stack_from_iter_long sh xs :
  SIZE_U sh < length xs -> stack_from_iter sh xs = Panic "stack storage full".
Proof.
  intros Hl. unfold stack_from_iter. rewrite uninit_new_filled.
  destruct (extend_overflow sh [] xs) as [u ->]; [simpl; lia|]. reflexivity.
Qed.

(** Dropping the slots [i .. i + m) of a builder holding [xs]. *)
Lemma drop_slots_filled xs (r : list (option T)) m i :
  i + m <= length xs ->
  drop_slots (seq i m) (map Some xs ++ r) = Ok (zip (seq i m) (take m (drop i xs))).
Proof.
  revert i; induction m as [|m IH]; intros i Hle; [done|].
  simpl. destruct (lookup_lt_is_Some_2 xs i) as [x Hx]; [lia|].
  rewrite lookup_app_l by (rewrite length_map; lia).
  rewrite list_lookup_fmap, Hx. simpl.
  rewrite IH by lia. rewrite (drop_S xs x i Hx). reflexivity.
Qed.

Lemma uninit_drop_filled sh xs :
  uninit_drop (filled sh xs) = Ok (zip (seq 0 (length xs)) xs).
Proof.
  unfold uninit_drop, filled; simpl.
  rewrite drop_slots_filled by lia. rewrite drop_0, take_ge by lia. reflexivity.
Qed.

End Builder.

(** ** Building a [VecStorage] *)

Section Chunked.
Context {T : Type}.
Implicit Types (v : val T) (xs ys rest : list T).

Lemma stack_from_iter_filled sh xs :
  length xs <= SIZE_U sh -> stack_from_iter sh xs = init sh (filled sh xs).
Proof.
  intros Hl. unfold stack_from_iter. rewrite uninit_new_filled.
  rewrite extend_filled by (simpl; lia). reflexivity.
Qed.

Lemma fill_filled s xs ys rest :
  length xs + length ys <= SIZE_U s ->
  fill s (length ys) (ys ++ rest) (filled s xs) = (rest, filled s (xs ++ ys), Ok tt).
Proof.
  revert xs; induction ys as [|y ys IH]; intros xs Hle; simpl.
  - rewrite app_nil_r. reflexivity.
  - simpl in Hle. rewrite push_filled by lia. rewrite IH.
    + rewrite <- app_assoc. reflexivity.
    + rewrite length_app; simpl. lia.
Qed.

Lemma fill_short s m xs ys :
  length ys < m -> length xs + m <= SIZE_U s ->
  exists it u, fill s m ys (filled s xs) = (it, u, Panic "iterator could not fill inner type").
Proof.
  revert m xs; induction ys as [|y ys IH]; intros m xs Hlt Hle.
  - destruct m as [|m]; [simpl in Hlt; lia|]. simpl. eauto.
  - destruct m as [|m]; [simpl in Hlt; lia|]. simpl in *.
    rewrite push_filled by lia. apply IH; rewrite ?length_app; simpl; lia.
Qed.

(** One round of the [while] loop on an input of [n] whole chunks. *)
Lemma vec_loop_whole s n xs fuel :
  SIZE_U s <> 0 -> length xs = n * SIZE_U s -> n < fuel ->
  exists cs, vec_loop s fuel xs = ([], Ok cs)
    /\ Forall2 (fun g c => length g = SIZE_U s /\ stack_from_iter s g = Ok c)
               (chunks (SIZE_U s) n xs) cs
    /\ concat (map into_iter cs) = xs.
Proof.
  intros Hk. revert xs fuel; induction n as [|n IH]; intros xs fuel Hl Hf.
  - destruct xs; [|simpl in Hl; lia]. destruct fuel as [|fuel]; [lia|].
    exists []. done.
  - destruct fuel as [|fuel]; [lia|].
    destruct xs as [|x xs1]; [simpl in Hl; lia|]. simpl in Hl.
    set (k := SIZE_U s) in *.
    simpl. rewrite uninit_new_filled, push_filled by (simpl; lia). simpl.
  change (SIZE_U s) with k.
    assert (Htk : length (take (k - 1) xs1) = k - 1) by (rewrite length_take; lia).
    pose proof (fill_filled s [x] (take (k - 1) xs1) (drop (k - 1) xs1)) as Hfill.
    rewrite Htk, take_drop in Hfill. rewrite Hfill by (simpl; lia). clear Hfill.
    destruct (init_filled s ([x] ++ take (k - 1) xs1)) as (c & Hc & Hsc & Hrc).
    { simpl. lia. }
    rewrite Hc.
    destruct (IH (drop (k - 1) xs1) fuel) as (cs & Hcs & Hall & Hcat).
    { rewrite length_drop. lia. }
    { lia. }
    rewrite Hcs. exists (c :: cs). split; [done|].
    replace (take k (x :: xs1)) with ([x] ++ take (k - 1) xs1)
      by (destruct k as [|k']; [lia|]; simpl; rewrite Nat.sub_0_r; reflexivity).
    replace (drop k (x :: xs1)) with (drop (k - 1) xs1)
      by (destruct k as [|k']; [lia|]; simpl; rewrite Nat.sub_0_r; reflexivity).
    split.
    + constructor; [|done]. split; [simpl; lia|].
      rewrite stack_from_iter_filled by (simpl; lia). done.
    + simpl. destruct (has_shape_traversals s c Hsc) as [-> _]. rewrite Hrc, Hcat.
      simpl. f_equal. apply take_drop.
Qed.

(** An input that ends in an incomplete chunk. *)
Lemma vec_loop_ragged s fuel xs :
  SIZE_U s <> 0 -> length xs mod SIZE_U s <> 0 -> length xs < fuel ->
  snd (vec_loop s fuel xs) = Panic "iterator could not fill inner type".
Proof.
  intros Hk. revert xs; induction fuel as [|fuel IH]; intros xs Hm Hf; [lia|].
  destruct xs as [|x xs1]; [simpl in Hm; rewrite Nat.Div0.mod_0_l in Hm; done|].
  set (k := SIZE_U s) in *.
  simpl. rewrite uninit_new_filled, push_filled by (simpl; lia). simpl.
  change (SIZE_U s) with k.
  destruct (decide (k - 1 <= length xs1)) as [Hge|Hlt].
  - assert (Htk : length (take (k - 1) xs1) = k - 1) by (rewrite length_take; lia).
    pose proof (fill_filled s [x] (take (k - 1) xs1) (drop (k - 1) xs1)) as Hfill.
    rewrite Htk, take_drop in Hfill. rewrite Hfill by (simpl; lia). clear Hfill.
    destruct (init_filled s ([x] ++ take (k - 1) xs1)) as (c & Hc & _ & _).
    { simpl. lia. }
    rewrite Hc.
    specialize (IH (drop (k - 1) xs1)).
    destruct (vec_loop s fuel (drop (k - 1) xs1)) as [it3 r3].
    simpl in IH. rewrite IH; [done| |].
    + rewrite length_drop.
      replace (length (x :: xs1)) with ((length xs1 - (k - 1)) + 1 * k) in Hm
        by (simpl; lia).
      rewrite Nat.Div0.mod_add in Hm. done.
    + rewrite length_drop. simpl in Hf. lia.
  - destruct (fill_short s (k - 1) [x] xs1) as (it & u & ->); [lia|simpl; lia|].
    reflexivity.
Qed.

End Chunked.

(** ** Layout of the stack types *)

Lemma round_up_multiple m a : a <> 0 -> round_up (m * a) a = m * a.
Proof.
  intros Ha. unfold round_up. rewrite decide_False by done.
  replace (m * a + a - 1) with (a - 1 + m * a) by lia.
  rewrite Nat.div_add by done. rewrite Nat.div_small by lia. reflexivity.
Qed.

(** Built from [Entry] upward, every stack type is laid out as
    [[T; SIZE]]: [SIZE] elements, aligned as [T]. *)
Lemma layout_stack size_of_T align_of_T sh :
  0 < align_of_T -> Nat.divide align_of_T size_of_T ->
  layout size_of_T align_of_T sh = (SIZE_U sh * size_of_T, align_of_T).
Proof.
  intros Ha [q Hq]. induction sh as [|s IH N|a IHa b IHb]; simpl.
  - f_equal. lia.
  - rewrite IH, SIZE_U_Array. f_equal. lia.
  - rewrite IHa, IHb, SIZE_U_Join, Nat.max_id. f_equal. subst size_of_T.
    replace (SIZE_U a * (q * align_of_T)) with ((SIZE_U a * q) * align_of_T) by lia.
    rewrite round_up_multiple by lia.
    replace (SIZE_U a * q * align_of_T + SIZE_U b * (q * align_of_T))
      with ((SIZE_U a * q + SIZE_U b * q) * align_of_T) by lia.
    rewrite round_up_multiple by lia. lia.
Qed.

Section Transmute.
Context {T : Type}.
Implicit Types (v w : val T).

Lemma transmute_buffer_ok size_of_T align_of_T src dst v :
  0 < align_of_T -> Nat.divide align_of_T size_of_T -> has_shape src v = true ->
  SIZE src = SIZE dst ->
  exists w, transmute_buffer size_of_T align_of_T src dst v = (Ok w, [])
    /\ has_shape dst w = true /\ repr w = repr v.
Proof.
  intros Ha Hd Hv Hs. pose proof Hs as Hs'. apply SIZE_U_inj in Hs'.
  unfold transmute_buffer, size_of, align_of.
  rewrite !layout_stack by done. simpl.
  rewrite decide_True by done. rewrite decide_True by (rewrite Hs'; done).
  rewrite decide_True by done.
  destruct (reinterpret_ok dst (repr v)) as (w & -> & Hw & Hr).
  { rewrite (has_shape_repr_length _ _ Hv). done. }
  eauto.
Qed.

End Transmute.

(** ** [swap] *)

Section SwapProps.
Context {T : Type}.
Variables (get_mut : nat -> option nat) (mem : list T).

(** The safety contract of [StorageMut]: different indices yield
    different places, all inside the storage's memory. *)
Hypothesis get_mut_inj : forall i j a, get_mut i = Some a -> get_mut j = Some a -> i = j.
Hypothesis get_mut_in : forall i a, get_mut i = Some a -> a < length mem.

(** Claim C10: [swap(i, j)] exchanges the elements at [i] and [j], leaves
    every other index alone, and [swap(i, i)] leaves the storage as it is. *)
Theorem C10_swap_exchanges i j :
  is_Some (get_mut i) -> is_Some (get_mut j) ->
  exists mem', swap get_mut mem i j = Ok mem'
    /\ elem get_mut mem' i = elem get_mut mem j
    /\ elem get_mut mem' j = elem get_mut mem i
    /\ (forall k, k <> i -> k <> j -> elem get_mut mem' k = elem get_mut mem k)
    /\ (i = j -> mem' = mem).
Proof.
  intros [a Ha] [b Hb].
  destruct (lookup_lt_is_Some_2 mem a) as [x Hx]; [eauto|].
  destruct (lookup_lt_is_Some_2 mem b) as [y Hy]; [eauto|].
  assert (Hla : a < length mem) by eauto.
  assert (Hlb : b < length mem) by eauto.
  unfold swap, ptr_swap, elem. rewrite Ha, Hb, Hx, Hy.
  eexists; split; [reflexivity|].
  destruct (decide (a = b)) as [<-|Hab].
  - rewrite Hx in Hy. injection Hy as <-.
    rewrite list_insert_insert_eq, (list_insert_id mem a x Hx).
    split; [done|]. split; [done|]. split; [|done].
    intros k Hki Hkj. done.
  - split; [rewrite list_lookup_insert_ne by done; rewrite list_lookup_insert_eq by done; done|].
    split; [rewrite list_lookup_insert_eq by (rewrite length_insert; done); done|].
    split.
    + intros k Hki Hkj. destruct (get_mut k) as [c|] eqn:Hc; [|done].
      assert (c <> a) by (intros ->; apply Hki; eauto).
      assert (c <> b) by (intros ->; apply Hkj; eauto).
      rewrite !list_lookup_insert_ne by done. done.
    + intros ->. congruence.
Qed.

End SwapProps.

(** ** Buffers: indexing against the slice *)

Section Buffers.
Context {T : Type}.
Implicit Types (b : buffer T).

(** [get] and the panicking [index] of every buffer answer exactly below
    the length of its slice. *)
Lemma get_slice_bound b i :
  wf_buffer b = true ->
  (is_Some (get b i) <-> i < length (as_slice b))
  /\ ((exists m, index b i = Panic m) <-> length (as_slice b) <= i).
Proof.
  induction b as [sh v|s cs|b IH|b IH]; intros Hwf; simpl in Hwf.
  - assert (Hs : as_slice (Stack sh v) = repr v).
    { simpl. unfold borrow. apply take_ge. rewrite (has_shape_repr_length _ _ Hwf). lia. }
    assert (Hg : get (Stack sh v) i = repr v !! i) by (apply stack_get_repr; done).
    rewrite Hg. unfold index. rewrite Hs. split; [apply lookup_lt_is_Some|].
    destruct (repr v !! i) eqn:Hi.
    + split; [intros [m Hm]; discriminate|].
      intros Hle. apply lookup_ge_None_2 in Hle. congruence.
    + split; [intros _; apply lookup_ge_None_1; done|eauto].
  - simpl. split; [apply lookup_lt_is_Some|].
    destruct (vec_borrow s cs !! i) eqn:Hi.
    + split; [intros [m Hm]; discriminate|].
      intros Hle. apply lookup_ge_None_2 in Hle. congruence.
    + split; [intros _; apply lookup_ge_None_1; done|eauto].
  - simpl. apply IH. done.
  - simpl. apply IH. done.
Qed.

Lemma get_mut_addr_inj b i j a :
  get_mut_addr b i = Some a -> get_mut_addr b j = Some a -> i = j.
Proof.
  induction b as [[|s N|x y] v|s cs|b IH|b IH]; simpl; try apply IH;
    repeat case_decide; congruence.
Qed.

Lemma get_mut_addr_in b i a :
  wf_buffer b = true -> get_mut_addr b i = Some a -> a < length (as_slice b).
Proof.
  induction b as [[|s N|x y] v|s cs|b IH|b IH]; simpl; intros Hwf; try (apply IH; done);
    repeat case_decide; intros Ha; try congruence; injection Ha as <-; try lia.
  destruct v; try discriminate. simpl. unfold borrow. simpl. lia.
Qed.

End Buffers.

(** * The claims *)

(** Claim C1 (code_bug): [ArrayStorage::len] returns [N], the number of
    sub-buffers, while [get] and [index] work on all [S::SIZE * N] elements:
    on [nested_a], [len()] is 1 and yet [get(1)] and [index(1)] succeed; on
    [empty_rows], [len()] is 3 and [get(0)] is [None]. *)
Theorem C1_array_len_mismatch :
  wf_buffer nested_a = true /\ blen nested_a = 1
  /\ get nested_a 1 = Some 2 /\ index nested_a 1 = Ok 2
  /\ wf_buffer empty_rows = true /\ blen empty_rows = 3 /\ get empty_rows 0 = None.
Proof. vm_compute. repeat split. Qed.

(** Claim C2 (code_bug): [ArrayStorage<ArrayStorage<Entry<_>, 2>, 1>] has
    [SIZE = Some(2)] and [len() = 1]; a [Join<Entry<_>, Entry<_>>] with the
    same two elements reports [len() = 2] = its [SIZE]. *)
Theorem C2_array_len_not_SIZE :
  SIZE (ArrayStorage (ArrayStorage Entry 2) 1) = Some 2 /\ blen nested_a = 1
  /\ SIZE (Join Entry Entry) = Some 2
  /\ blen (Stack (Join Entry Entry) (VJoin (VEntry 1) (VEntry 2)) : buffer nat) = 2.
Proof. vm_compute. repeat split. Qed.

(** Claim C3 (code_bug): [Entry::from_iter] on two elements keeps the first
    and drops the second, where the [_from_iter] of [ArrayStorage<Entry, 1>]
    and of [Join<Entry, Entry>] panic on an extra element. *)
Theorem C3_entry_from_iter_excess :
  from_iter Entry [1; 2] = Ok (VEntry 1)
  /\ from_iter (ArrayStorage Entry 1) [1; 2] = Panic "stack storage full"
  /\ from_iter (Join Entry Entry) [1; 2; 3] = Panic "stack storage full".
Proof. vm_compute. repeat split. Qed.

(** Claim C4: building a stack buffer of [SIZE_U sh] elements from exactly
    that many elements succeeds, and [into_iter] gives them back in order. *)
Theorem C4_from_iter_into_iter {T : Type} sh (xs : list T) :
  length xs = SIZE_U sh ->
  exists v, from_iter sh xs = Ok v /\ has_shape sh v = true /\ into_iter v = xs.
Proof.
  intros Hl. destruct sh as [|s N|a b].
  - destruct xs as [|x [|]]; simpl in Hl; try discriminate.
    exists (VEntry x). done.
  - destruct (stack_from_iter_exact (ArrayStorage s N) xs Hl) as (v & Hv & Hs & Hr).
    exists v. simpl. rewrite Hv. destruct (has_shape_traversals _ _ Hs) as [-> _]. done.
  - destruct (stack_from_iter_exact (Join a b) xs Hl) as (v & Hv & Hs & Hr).
    exists v. simpl. rewrite Hv. destruct (has_shape_traversals _ _ Hs) as [-> _]. done.
Qed.

Lemma C4_from_iter_into_iter_witness :
  length [1; 2; 3] = SIZE_U (Join (ArrayStorage Entry 2) Entry)
  /\ exists v, from_iter (Join (ArrayStorage Entry 2) Entry) [1; 2; 3] = Ok v
       /\ has_shape (Join (ArrayStorage Entry 2) Entry) v = true /\ into_iter v = [1; 2; 3].
Proof.
  split; [reflexivity|].
  apply (C4_from_iter_into_iter (Join (ArrayStorage Entry 2) Entry) [1; 2; 3]).
  reflexivity.
Defined.

(** Claim C5: [merge(a, b)] is a buffer of [SIZE] and [len] [m + n] whose
    element [i] is [a]'s element [i] below [m] and [b]'s element [i - m]
    from [m] to [m + n]. *)
Theorem C5_merge_get {T : Type} sa sb (a b : val T) :
  has_shape sa a = true -> has_shape sb b = true ->
  SIZE (Join sa sb) = Some (SIZE_U sa + SIZE_U sb)
  /\ blen (Stack (Join sa sb) (merge a b)) = SIZE_U sa + SIZE_U sb
  /\ has_shape (Join sa sb) (merge a b) = true
  /\ (forall i, i < SIZE_U sa -> get (Stack (Join sa sb) (merge a b)) i = get (Stack sa a) i)
  /\ (forall i, SIZE_U sa <= i < SIZE_U sa + SIZE_U sb ->
        get (Stack (Join sa sb) (merge a b)) i = get (Stack sb b) (i - SIZE_U sa)).
Proof.
  intros Ha Hb.
  assert (Hj : has_shape (Join sa sb) (merge a b) = true) by (simpl; rewrite Ha, Hb; done).
  pose proof (has_shape_repr_length _ _ Ha) as La.
  split; [rewrite SIZE_SIZE_U, SIZE_U_Join; done|].
  split; [simpl; apply SIZE_U_Join|].
  split; [done|].
  split.
  - intros i Hi. cbn [get]. rewrite !stack_get_repr by done. simpl.
    apply lookup_app_l. lia.
  - intros i Hi. cbn [get]. rewrite !stack_get_repr by done. simpl.
    rewrite lookup_app_r by lia. rewrite La. done.
Qed.

Lemma C5_merge_get_witness :
  exists (a b : val nat),
  has_shape (ArrayStorage Entry 2) a = true /\ has_shape Entry b = true
  /\ get (Stack (Join (ArrayStorage Entry 2) Entry) (merge a b)) 2 = get (Stack Entry b) 0.
Proof.
  exists (VArray [VEntry 1; VEntry 2]), (VEntry 3).
  split; [reflexivity|]. split; [reflexivity|].
  apply (C5_merge_get (ArrayStorage Entry 2) Entry (VArray [VEntry 1; VEntry 2]) (VEntry 3));
    [reflexivity|reflexivity|vm_compute; lia].
Defined.

(** Claim C6: [transmute_buffer] panics exactly when one of its three
    assertions fails; otherwise the result is [Ok] with the same
    representation, and nothing is dropped during the call. [transmute_array]
    keeps every element at its index and the order of [into_iter]. *)
Theorem C6_transmute {T : Type} size_of_T align_of_T src dst (v : val T) :
  0 < align_of_T -> Nat.divide align_of_T size_of_T -> has_shape src v = true ->
  ((exists m, fst (transmute_buffer size_of_T align_of_T src dst v) = Panic m) <->
     SIZE src <> SIZE dst
     \/ size_of size_of_T align_of_T src <> size_of size_of_T align_of_T dst
     \/ align_of size_of_T align_of_T src <> align_of size_of_T align_of_T dst)
  /\ (SIZE src = SIZE dst ->
      exists w, transmute_buffer size_of_T align_of_T src dst v = (Ok w, [])
        /\ has_shape dst w = true /\ repr w = repr v /\ drop_glue w = drop_glue v)
  /\ (forall N, SIZE src = Some N ->
      exists w, transmute_array size_of_T align_of_T N src v = (Ok w, [])
        /\ into_iter w = into_iter v
        /\ forall i, get (Stack (ArrayStorage Entry N) w) i = get (Stack src v) i).
Proof.
  intros Ha Hd Hv. split; [|split].
  - split.
    + intros [m Hm]. destruct (decide (SIZE src = SIZE dst)) as [Hs|Hs]; [|by left].
      destruct (transmute_buffer_ok size_of_T align_of_T src dst v Ha Hd Hv Hs)
        as (w & Hw & _). rewrite Hw in Hm. discriminate.
    + unfold transmute_buffer.
      intros [Hs|[Hs|Hs]]; repeat case_decide; try contradiction; eauto.
  - intros Hs.
    destruct (transmute_buffer_ok size_of_T align_of_T src dst v Ha Hd Hv Hs)
      as (w & Hw & Hsw & Hr).
    exists w. split; [done|]. split; [done|]. split; [done|].
    destruct (has_shape_traversals _ _ Hv) as [_ ->].
    destruct (has_shape_traversals _ _ Hsw) as [_ ->]. done.
  - intros N HN.
    assert (Hs : SIZE src = SIZE (ArrayStorage Entry N)) by (rewrite HN; simpl; f_equal; lia).
    destruct (transmute_buffer_ok size_of_T align_of_T src _ v Ha Hd Hv Hs)
      as (w & Hw & Hsw & Hr).
    exists w. split; [done|].
    destruct (has_shape_traversals _ _ Hv) as [-> _].
    destruct (has_shape_traversals _ _ Hsw) as [-> _].
    split; [done|].
    intros i. cbn [get]. rewrite !stack_get_repr by done. rewrite Hr. done.
Qed.

Lemma C6_transmute_witness :
  exists w, transmute_array 8 8 3 (Join (ArrayStorage Entry 2) Entry)
              (VJoin (VArray [VEntry 1; VEntry 2]) (VEntry 3)) = (Ok w, [])
    /\ into_iter w = [1; 2; 3]
    /\ forall i, get (Stack (ArrayStorage Entry 3) w) i
                 = get (Stack (Join (ArrayStorage Entry 2) Entry)
                          (VJoin (VArray [VEntry 1; VEntry 2]) (VEntry 3))) i.
Proof.
  apply (C6_transmute 8 8 (Join (ArrayStorage Entry 2) Entry) (ArrayStorage Entry 3)
           (VJoin (VArray [VEntry 1; VEntry 2]) (VEntry 3)));
    [lia|exists 1; reflexivity|reflexivity|reflexivity].
Defined.

(** Claim C7: with [S::SIZE_U = 0], [VecStorage::from_iter] returns no
    chunks and leaves the iterator untouched; otherwise it consumes the
    input in groups of [S::SIZE_U] elements, each built by the staged
    initializer, and panics with "iterator could not fill inner type"
    exactly when the length is not a multiple of [S::SIZE_U]. *)
Theorem C7_vec_from_iter {T : Type} s (xs : list T) :
  (SIZE_U s = 0 -> vec_from_iter s xs = (xs, Ok []))
  /\ (SIZE_U s <> 0 -> length xs mod SIZE_U s = 0 ->
      exists cs, vec_from_iter s xs = ([], Ok cs)
        /\ Forall2 (fun g c => length g = SIZE_U s /\ stack_from_iter s g = Ok c)
                   (chunks (SIZE_U s) (length xs / SIZE_U s) xs) cs
        /\ concat (map into_iter cs) = xs)
  /\ (SIZE_U s <> 0 -> length xs mod SIZE_U s <> 0 ->
      snd (vec_from_iter s xs) = Panic "iterator could not fill inner type").
Proof.
  unfold vec_from_iter. split; [|split].
  - intros Hk. rewrite decide_True by done. reflexivity.
  - intros Hk Hm. rewrite decide_False by done.
    apply vec_loop_whole; [done| |].
    + pose proof (Nat.div_mod_eq (length xs) (SIZE_U s)). lia.
    + pose proof (Nat.div_mod_eq (length xs) (SIZE_U s)).
      assert (length xs / SIZE_U s <= length xs) by (apply Nat.Div0.div_le_upper_bound; nia).
      lia.
  - intros Hk Hm. rewrite decide_False by done.
    apply vec_loop_ragged; [done|done|lia].
Qed.

Lemma C7_vec_from_iter_witness :
  snd (vec_from_iter (ArrayStorage Entry 2) [1; 2; 3]) = Panic "iterator could not fill inner type"
  /\ vec_from_iter (ArrayStorage Entry 0) [1; 2; 3] = ([1; 2; 3], Ok []).
Proof.
  split.
  - apply (proj2 (proj2 (C7_vec_from_iter (ArrayStorage Entry 2) [1; 2; 3])));
      vm_compute; discriminate.
  - apply (proj1 (C7_vec_from_iter (ArrayStorage Entry 0) [1; 2; 3])). reflexivity.
Defined.

(** Claim C8: after [k < SIZE] pushes into a fresh builder, dropping it
    drops the [k] written slots, offsets [0 .. k), each once, and reads no
    other slot. *)
Theorem C8_uninit_drop {T : Type} sh (xs : list T) :
  length xs < SIZE_U sh ->
  snd (extend sh xs (uninit_new sh)) = Ok tt
  /\ len (fst (extend sh xs (uninit_new sh))) = length xs
  /\ uninit_drop (fst (extend sh xs (uninit_new sh))) = Ok (zip (seq 0 (length xs)) xs).
Proof.
  intros Hl. rewrite uninit_new_filled, extend_filled by (simpl; lia). simpl.
  split; [done|]. split; [done|]. apply uninit_drop_filled.
Qed.

Lemma C8_uninit_drop_witness :
  length [7; 8] < SIZE_U (ArrayStorage Entry 4)
  /\ uninit_drop (fst (extend (ArrayStorage Entry 4) [7; 8] (uninit_new (ArrayStorage Entry 4))))
     = Ok [(0, 7); (1, 8)].
Proof.
  split; [vm_compute; lia|].
  apply (C8_uninit_drop (ArrayStorage Entry 4) [7; 8]). vm_compute. lia.
Defined.

(** Claim C9: a [push] into a full builder panics and leaves the builder
    as it was, so dropping it afterwards drops exactly the elements pushed
    before. *)
Theorem C9_push_full {T : Type} sh :
  (forall (u : uninit T) x, len u = SIZE_U sh -> push sh x u = (u, Panic "stack storage full"))
  /\ (forall (xs : list T) x, length xs = SIZE_U sh ->
      let u := fst (extend sh xs (uninit_new sh)) in
      push sh x u = (u, Panic "stack storage full")
      /\ uninit_drop (fst (push sh x u)) = Ok (zip (seq 0 (length xs)) xs)).
Proof.
  split.
  - intros u x Hl. apply push_full. lia.
  - intros xs x Hl. simpl.
    rewrite uninit_new_filled, extend_filled by (simpl; lia). simpl.
    rewrite push_full by (simpl; lia). simpl.
    split; [done|]. apply uninit_drop_filled.
Qed.

Lemma C9_push_full_witness :
  push (ArrayStorage Entry 2) 3 (fst (extend (ArrayStorage Entry 2) [1; 2] (uninit_new (ArrayStorage Entry 2))))
    = (fst (extend (ArrayStorage Entry 2) [1; 2] (uninit_new (ArrayStorage Entry 2))), Panic "stack storage full")
  /\ uninit_drop (fst (push (ArrayStorage Entry 2) 3
                        (fst (extend (ArrayStorage Entry 2) [1; 2] (uninit_new (ArrayStorage Entry 2))))))
     = Ok [(0, 1); (1, 2)].
Proof.
  apply (proj2 (C9_push_full (ArrayStorage Entry 2)) [1; 2] 3). reflexivity.
Defined.

Lemma C10_swap_exchanges_witness :
  exists mem', swap (get_mut_addr swap_buf) (as_slice swap_buf) 0 2 = Ok mem'
    /\ elem (get_mut_addr swap_buf) mem' 0 = Some 3
    /\ elem (get_mut_addr swap_buf) mem' 2 = Some 1
    /\ (forall k, k <> 0 -> k <> 2 ->
          elem (get_mut_addr swap_buf) mem' k = elem (get_mut_addr swap_buf) (as_slice swap_buf) k)
    /\ (0 = 2 -> mem' = as_slice swap_buf).
Proof.
  apply (C10_swap_exchanges (get_mut_addr swap_buf) (as_slice swap_buf)
           (get_mut_addr_inj swap_buf)
           (fun i a => get_mut_addr_in swap_buf i a eq_refl) 0 2);
    vm_compute; eauto.
Defined.

(** * Further properties of the storage API and of permutations *)

Section ApiLemmas.
Context {T : Type}.
Implicit Types (b : buffer T) (l : list T).

(** [Index] of every buffer reads the slice, through any [Ref] and [Mut]. *)
Lemma index_slice b i :
  index b i = match as_slice b !! i with Some x => Ok x | None => Panic "index out of bounds" end.
Proof. induction b; simpl; done. Qed.

Lemma as_slice_stack sh (v : val T) :
  has_shape sh v = true -> as_slice (Stack sh v) = repr v.
Proof.
  intros H. simpl. unfold borrow. apply take_ge. rewrite (has_shape_repr_length sh v H). lia.
Qed.

(** [get] of a well-formed buffer reads its slice. *)
Lemma get_slice b i : wf_buffer b = true -> get b i = as_slice b !! i.
Proof.
  induction b as [sh v|s cs|b IH|b IH]; intros Hwf; simpl in Hwf.
  - cbn [get]. rewrite stack_get_repr, as_slice_stack by done. done.
  - done.
  - apply IH. done.
  - apply IH. done.
Qed.

(** [get_mut] of a well-formed buffer hands out the [i]th place of its
    slice below its length. *)
Lemma get_mut_addr_slice b i :
  wf_buffer b = true ->
  get_mut_addr b i = if decide (i < length (as_slice b)) then Some i else None.
Proof.
  induction b as [[|s N|x y] v|s cs|b IH|b IH]; intros Hwf; simpl in Hwf;
    try (apply IH; done); try done.
  destruct v as [x| |]; try discriminate.
  simpl. unfold borrow. simpl.
  destruct (decide (i = 0)) as [Hi0|Hi]; destruct (decide (i < 1)); first [subst; done | done | lia].
Qed.

Lemma iter_calls_map b k n : iter_calls b k n = map (get b) (seq k n).
Proof. revert k; induction n as [|n IH]; intros k; simpl; [done|]. rewrite IH. done. Qed.

Lemma iter_mut_calls_map b k n : iter_mut_calls b k n = map (get_mut_addr b) (seq k n).
Proof. revert k; induction n as [|n IH]; intros k; simpl; [done|]. rewrite IH. done. Qed.

Lemma map_lookup_seq {A : Type} (l : list A) k :
  map (fun i => l !! i) (seq 0 (length l + k)) = map Some l ++ replicate k None.
Proof.
  assert (Hin : forall m, map (fun i => (m ++ l) !! i) (seq (length m) (length l)) = map Some l).
  { induction l as [|x l IH]; intros m; [done|]. simpl.
    rewrite lookup_app_r by lia. rewrite Nat.sub_diag. simpl. f_equal.
    replace (m ++ x :: l) with ((m ++ [x]) ++ l) by (rewrite <- app_assoc; done).
    replace (S (length m)) with (length (m ++ [x])) by (rewrite length_app; simpl; lia).
    apply IH. }
  assert (Hout : forall j, length l <= j ->
    map (fun i => l !! i) (seq j k) = replicate k None).
  { induction k as [|k IH]; intros j Hj; [done|]. simpl.
    rewrite lookup_ge_None_2 by done. rewrite IH by lia. done. }
  rewrite seq_app, map_app. pose proof (Hin []) as H0. simpl in H0. rewrite H0. rewrite Hout by lia. done.
Qed.

Lemma take_some_slice {A : Type} (l : list A) k :
  take_some (map Some l ++ replicate (S k) None) = l.
Proof. induction l as [|x l IH]; [done|]. cbn [map app take_some]. rewrite IH. done. Qed.

(** [Iter] on a well-formed buffer: the slice, then [None] for good. *)
Lemma iter_calls_slice b k :
  wf_buffer b = true ->
  iter_calls b 0 (length (as_slice b) + k) = map Some (as_slice b) ++ replicate k None.
Proof.
  intros Hwf. rewrite iter_calls_map.
  rewrite (map_ext_in _ (fun i => as_slice b !! i)) by (intros; apply get_slice; done).
  apply map_lookup_seq.
Qed.

Lemma iter_mut_calls_slice b k :
  wf_buffer b = true ->
  iter_mut_calls b 0 (length (as_slice b) + k)
  = map Some (seq 0 (length (as_slice b))) ++ replicate k None.
Proof.
  intros Hwf. rewrite iter_mut_calls_map.
  rewrite (map_ext_in _ (fun i => seq 0 (length (as_slice b)) !! i)).
  - pose proof (map_lookup_seq (seq 0 (length (as_slice b))) k) as H.
    rewrite length_seq in H. exact H.
  - intros i _. rewrite get_mut_addr_slice by done.
    case_decide.
    + rewrite lookup_seq_lt by done. done.
    + rewrite lookup_seq_ge by lia. done.
Qed.

(** The chunks of a [VecStorage] laid end to end. *)
Lemma vec_borrow_concat s (cs : list (val T)) :
  forallb (has_shape s) cs = true -> vec_borrow s cs = concat (map repr cs).
Proof.
  intros H. unfold vec_borrow. apply take_ge.
  induction cs as [|c cs IH]; simpl; [lia|]. simpl in H.
  apply andb_prop in H as [Hc H]. rewrite length_app, (has_shape_repr_length _ _ Hc).
  specialize (IH H). lia.
Qed.

Lemma length_chunks k n l : length (chunks k n l) = n.
Proof. revert l; induction n; simpl; auto. Qed.

(** [mem::transmute_copy] of a value's own representation gives it back. *)
Lemma reinterpret_repr sh (v : val T) :
  has_shape sh v = true -> reinterpret sh (repr v) = Some v.
Proof.
  revert v; induction sh as [|s IH N|a IHa b IHb]; intros [x|vs|x y] H;
    simpl in H; try discriminate.
  - done.
  - apply andb_prop in H as [Hl Hf]. apply bool_decide_eq_true in Hl. subst N.
    simpl. assert (Hm : mapM (reinterpret s) (chunks (SIZE_U s) (length vs) (concat (map repr vs)))
                        = Some vs).
    { induction vs as [|w vs IHvs]; [done|]. simpl in Hf |- *.
      apply andb_prop in Hf as [Hw Hf].
      pose proof (has_shape_repr_length _ _ Hw) as Hlw.
      rewrite take_app_length' by done. rewrite drop_app_length' by done.
      rewrite IH by done. rewrite IHvs by done. done. }
    rewrite Hm. done.
  - apply andb_prop in H as [Ha Hb]. simpl.
    pose proof (has_shape_repr_length _ _ Ha) as Hla.
    rewrite take_app_length' by done. rewrite drop_app_length' by done.
    rewrite IHa, IHb by done. done.
Qed.

End ApiLemmas.

(** The loop of [Permutation::new] accepts exactly the lists without
    repetitions whose entries all find an unmarked slot. *)
Lemma new_loop_spec checked vs :
  new_loop checked vs = Some tt <-> NoDup vs /\ Forall (fun v => checked !! v = Some false) vs.
Proof.
  revert checked; induction vs as [|v vs IH]; intros checked; simpl.
  - split; [intros _; split; constructor|done].
  - rewrite NoDup_cons, Forall_cons.
    destruct (checked !! v) as [[|]|] eqn:Hv.
    + split; [done|]. intros (_ & Hf & _). discriminate.
    + rewrite IH.
      assert (Hlt : v < length checked) by (apply lookup_lt_is_Some; eauto).
      assert (Hiff : Forall (fun w => <[v:=true]> checked !! w = Some false) vs
                     <-> (v ∉ vs) /\ Forall (fun w => checked !! w = Some false) vs).
      { rewrite !Forall_forall. split.
        - intros Hall. split.
          + intros Hin. specialize (Hall v Hin).
            rewrite list_lookup_insert_eq in Hall by done. discriminate.
          + intros w Hw. specialize (Hall w Hw). destruct (decide (w = v)) as [->|Hne].
            * rewrite list_lookup_insert_eq in Hall by done. discriminate.
            * rewrite list_lookup_insert_ne in Hall by done. done.
        - intros [Hnin Hall] w Hw. rewrite list_lookup_insert_ne; [apply Hall; done|].
          intros ->. contradiction. }
      rewrite Hiff. tauto.
    + split; [done|]. intros (_ & Hf & _). discriminate.
Qed.

(** [Permutation::new] as a predicate on the slice. *)
Lemma perm_new_spec (s : buffer nat) :
  wf_buffer s = true ->
  perm_new s = (if decide (NoDup (as_slice s) /\ Forall (fun v => v < blen s) (as_slice s))
                then Some s else None).
Proof.
  intros Hwf. unfold perm_new.
  pose proof (iter_calls_slice s 1 Hwf) as Hit.
  replace (length (as_slice s) + 1) with (S (length (as_slice s))) in Hit by lia.
  rewrite Hit, take_some_slice.
  destruct (new_loop _ _) as [[]|] eqn:Hn.
  - apply new_loop_spec in Hn as [Hnd Hf]. rewrite decide_True; [done|].
    split; [done|]. eapply Forall_impl; [exact Hf|]. simpl. intros v Hv.
    apply lookup_replicate in Hv as [_ Hv]. done.
  - rewrite decide_False; [done|]. intros [Hnd Hf].
    assert (Hs : new_loop (replicate (blen s) false) (as_slice s) = Some tt).
    { apply new_loop_spec. split; [done|]. eapply Forall_impl; [exact Hf|].
      simpl. intros v Hv. apply lookup_replicate_2. done. }
    congruence.
Qed.

(** The items [compose] pulls, once they all evaluate. *)
Lemma extend_lazy_ok {T : Type} sh (l : list T) u :
  extend_lazy sh (map Ok l) u = extend sh l u.
Proof.
  revert u; induction l as [|x l IH]; intros u; simpl; [done|].
  destruct (push sh x u) as [u' [[]|m|]]; [apply IH|done|done].
Qed.

Lemma stack_from_iter_lazy_ok {T : Type} sh (l : list T) :
  stack_from_iter_lazy sh (map Ok l) = stack_from_iter sh l.
Proof. unfold stack_from_iter_lazy, stack_from_iter. rewrite extend_lazy_ok. done. Qed.

(** The loop of [compose_mut_rhs] over the places [k ..]: each place is
    read before it is written, so it reads [p]'s original entries. *)
Lemma compose_mut_loop_seq (self : buffer nat) n pre suf :
  length suf = n ->
  compose_mut_loop self (seq (length pre) n) (pre ++ suf)
  = match mapM (fun v => as_slice self !! v) suf with
    | Some l => Ok (pre ++ l)
    | None => Panic "index out of bounds"
    end.
Proof.
  revert pre suf; induction n as [|n IH]; intros pre suf Hl.
  - destruct suf; simpl in Hl; [|lia]. simpl. rewrite app_nil_r. done.
  - destruct suf as [|x suf]; simpl in Hl; [lia|]. simpl.
    rewrite lookup_app_r by lia. rewrite Nat.sub_diag. simpl.
    rewrite index_slice. destruct (as_slice self !! x) as [w|] eqn:Hw; [|done].
    rewrite insert_app_r_alt by lia. rewrite Nat.sub_diag. simpl.
    replace (pre ++ w :: suf) with ((pre ++ [w]) ++ suf) by (rewrite <- app_assoc; done).
    replace (S (length pre)) with (length (pre ++ [w])) by (rewrite length_app; simpl; lia).
    rewrite IH by lia. destruct (mapM _ suf); [|done]. rewrite <- app_assoc. done.
Qed.

(** Looking up, in [ps], every entry of [qs]. *)
Lemma mapM_lookup_total (ps qs : list nat) :
  Forall (fun v => v < length ps) qs ->
  mapM (fun v => ps !! v) qs = Some (map (fun v => ps !!! v) qs).
Proof.
  induction 1 as [|v qs Hv _ IH]; [done|]. simpl.
  rewrite list_lookup_lookup_total_lt by done. simpl. rewrite IH. done.
Qed.

(** Composing two lists that each list distinct entries below [N]. *)
Lemma compose_lists N (ps qs : list nat) :
  length ps = N -> NoDup ps -> Forall (fun v => v < N) ps ->
  NoDup qs -> Forall (fun v => v < N) qs ->
  NoDup (map (fun v => ps !!! v) qs) /\ Forall (fun v => v < N) (map (fun v => ps !!! v) qs).
Proof.
  intros Hl Hnp Hfp Hnq Hfq. split.
  - apply (NoDup_fmap_2_strong (fun v => ps !!! v)); [|done].
    intros x y Hx Hy Hxy.
    assert (x < N) by (apply (proj1 (Forall_forall (fun v => v < N) qs) Hfq); done).
    assert (y < N) by (apply (proj1 (Forall_forall (fun v => v < N) qs) Hfq); done).
    apply (NoDup_lookup ps _ _ (ps !!! x) Hnp).
    + apply list_lookup_lookup_total_lt. lia.
    + rewrite Hxy. apply list_lookup_lookup_total_lt. lia.
  - change (Forall (fun v => v < N) ((fun v => ps !!! v) <$> qs)). apply Forall_fmap.
    eapply Forall_impl; [exact Hfq|]. intros v Hv. simpl in Hv |- *.
    apply (Forall_lookup_1 (fun v => v < N) ps v); [exact Hfp|].
    apply list_lookup_lookup_total_lt. lia.
Qed.

(** The marks of [parity]'s loop as a function of the index. *)
Lemma marks_lookup (f : nat -> bool) N x :
  map f (seq 0 N) !! x = if decide (x < N) then Some (f x) else None.
Proof.
  rewrite list_lookup_fmap. case_decide.
  - rewrite lookup_seq_lt by done. done.
  - rewrite lookup_seq_ge by lia. done.
Qed.

Lemma marks_insert (f : nat -> bool) N k :
  k < N -> <[k := true]> (map f (seq 0 N)) = map (fun x => if decide (x = k) then true else f x) (seq 0 N).
Proof.
  intros Hk. apply list_eq. intros x. rewrite marks_lookup.
  destruct (decide (x = k)) as [->|Hne].
  - rewrite list_lookup_insert_eq by (rewrite length_map, length_seq; done).
    rewrite decide_True by done. done.
  - rewrite list_lookup_insert_ne by done. rewrite marks_lookup. done.
Qed.

(** One round of [parity]'s [for] loop at an index [k] with [self[k] = k]:
    the [while] loop ends at once, on a cycle of length 1. *)
Lemma parity_loop_fixed self k is (checked : list bool) par :
  checked !! k = Some false -> as_slice self !! k = Some k ->
  parity_loop self (k :: is) checked par = parity_loop self is (<[k := true]> checked) par.
Proof.
  intros Hc Hs. simpl. rewrite Hc, index_slice, Hs. simpl.
  rewrite decide_True by done. done.
Qed.

(** Orbits of a map [f] that permutes [0 .. N). *)
Section Orbit.
Variables (N : nat) (f : nat -> nat).
Hypothesis f_lt : forall x, x < N -> f x < N.
Hypothesis f_inj : forall x y, x < N -> y < N -> f x = f y -> x = y.

Lemma iter_lt k x : x < N -> Nat.iter k f x < N.
Proof. intros Hx. induction k as [|k IH]; [done|]. rewrite Nat.iter_succ. auto. Qed.

Lemma iter_cancel p q x :
  x < N -> p <= q -> Nat.iter p f x = Nat.iter q f x -> Nat.iter (q - p) f x = x.
Proof.
  intros Hx. revert q; induction p as [|p IH]; intros q Hpq He.
  - rewrite Nat.sub_0_r. done.
  - destruct q as [|q]; [lia|]. rewrite !Nat.iter_succ in He.
    apply f_inj in He; [|apply iter_lt; done|apply iter_lt; done].
    simpl. apply IH; [lia|done].
Qed.

(** Every point comes back to itself within [N] steps. *)
Lemma orbit_returns x : x < N -> exists d, 1 <= d <= N /\ Nat.iter d f x = x.
Proof.
  intros Hx.
  destruct (decide (Exists (fun d => Nat.iter d f x = x) (seq 1 N))) as [HE|HnE].
  - apply Exists_exists in HE as (d & Hd & Hdx). apply elem_of_seq in Hd.
    exists d. split; [lia|done].
  - exfalso.
    assert (Hnd : NoDup (map (fun k => Nat.iter k f x) (seq 0 (S N)))).
    { apply (NoDup_fmap_2_strong (fun k => Nat.iter k f x)); [|apply NoDup_seq].
      intros p q Hp Hq Hpq. apply elem_of_seq in Hp, Hq.
      destruct (decide (p = q)) as [|Hne]; [done|]. exfalso. apply HnE.
      apply Exists_exists.
      destruct (decide (p < q)).
      + exists (q - p). split; [apply elem_of_seq; lia|]. apply iter_cancel; [done|lia|done].
      + exists (p - q). split; [apply elem_of_seq; lia|]. apply iter_cancel; [done|lia|done]. }
    assert (Hincl : incl (map (fun k => Nat.iter k f x) (seq 0 (S N))) (seq 0 N)).
    { intros y Hy. apply in_map_iff in Hy as (k & <- & _). apply in_seq.
      pose proof (iter_lt k x Hx). lia. }
    apply NoDup_ListNoDup in Hnd.
    pose proof (NoDup_incl_length Hnd Hincl) as Hle.
    rewrite length_map, !length_seq in Hle. lia.
Qed.

End Orbit.

(** ** Extra properties *)

(** [Storage::size] of a stack buffer ([Size::from_usize(self.len())])
    returns its [len()], except for [ArrayStorage<S, N>] with [N <> 0] and
    [S::SIZE <> 1]: there [len()] is [N] and [SIZE] is [S::SIZE * N], and
    the call panics with "size mismatch". *)
Theorem storage_size_stack {T : Type} sh (v : val T) :
  (storage_size (Stack sh v) = Ok (stack_len sh)
     <-> ~ (exists s N, sh = ArrayStorage s N /\ N <> 0 /\ SIZE_U s <> 1))
  /\ (storage_size (Stack sh v) = Panic "size mismatch"
     <-> exists s N, sh = ArrayStorage s N /\ N <> 0 /\ SIZE_U s <> 1).
Proof.
  unfold storage_size, size_from_usize. cbn [buffer_SIZE blen].
  destruct sh as [|s N|a b].
  - simpl. split; split; try done.
    + intros _ (s & N & Hs & _). discriminate.
    + intros (s & N & Hs & _). discriminate.
  - cbn [SIZE stack_len]. rewrite SIZE_SIZE_U. simpl.
    destruct (decide (SIZE_U s * N <> N)) as [Hne|Heq].
    + assert (HN : N <> 0) by (intros HN0; subst N; lia).
      assert (Hs : SIZE_U s <> 1) by (intros Hs1; rewrite Hs1 in Hne; lia).
      split; split.
      * discriminate.
      * intros Hn. exfalso. apply Hn. eauto.
      * intros _. eauto.
      * done.
    + split; split; try done.
      * intros _ (s' & N' & Hs & HN & Hs1). injection Hs as <- <-. nia.
      * intros (s' & N' & Hs & HN & Hs1). injection Hs as <- <-. nia.
  - rewrite SIZE_SIZE_U. cbn [stack_len]. rewrite decide_False by lia.
    split; split; try done.
    + intros _ (s & N & Hs & _). discriminate.
    + intros (s & N & Hs & _). discriminate.
Qed.

(** [Iter] over a well-formed buffer yields the elements of its slice in
    order, then [None] at every later call. *)
Theorem iter_yields_slice {T : Type} (b : buffer T) k :
  wf_buffer b = true ->
  iter_calls b 0 (length (as_slice b) + k) = map Some (as_slice b) ++ replicate k None.
Proof. intros Hwf. apply iter_calls_slice. done. Qed.

Lemma iter_yields_slice_witness :
  wf_buffer (Stack (Join Entry (ArrayStorage Entry 2)) (VJoin (VEntry 5) (VArray [VEntry 6; VEntry 7]))) = true
  /\ iter_calls (Stack (Join Entry (ArrayStorage Entry 2)) (VJoin (VEntry 5) (VArray [VEntry 6; VEntry 7]))) 0
       (length (as_slice (Stack (Join Entry (ArrayStorage Entry 2)) (VJoin (VEntry 5) (VArray [VEntry 6; VEntry 7])))) + 2)
     = map Some (as_slice (Stack (Join Entry (ArrayStorage Entry 2)) (VJoin (VEntry 5) (VArray [VEntry 6; VEntry 7])))) ++ replicate 2 None.
Proof. split; [reflexivity|]. apply iter_yields_slice. reflexivity. Defined.

(** [IterMut] over a well-formed buffer hands out the places [0, 1, ...]
    of its slice, each once, then [None] at every later call: no two
    calls alias. *)
Theorem iter_mut_places {T : Type} (b : buffer T) k :
  wf_buffer b = true ->
  iter_mut_calls b 0 (length (as_slice b) + k)
  = map Some (seq 0 (length (as_slice b))) ++ replicate k None
  /\ NoDup (take_some (iter_mut_calls b 0 (length (as_slice b) + S k))).
Proof.
  intros Hwf. split; [apply iter_mut_calls_slice; done|].
  rewrite iter_mut_calls_slice, take_some_slice by done. apply NoDup_seq.
Qed.

Lemma iter_mut_places_witness :
  wf_buffer (VecStorage (ArrayStorage Entry 2) [VArray [VEntry 1; VEntry 2]; VArray [VEntry 3; VEntry 4]]) = true
  /\ iter_mut_calls (VecStorage (ArrayStorage Entry 2) [VArray [VEntry 1; VEntry 2]; VArray [VEntry 3; VEntry 4]]) 0 (4 + 1)
     = map Some (seq 0 4) ++ replicate 1 None.
Proof.
  split; [reflexivity|].
  apply (iter_mut_places (VecStorage (ArrayStorage Entry 2) [VArray [VEntry 1; VEntry 2]; VArray [VEntry 3; VEntry 4]]) 1).
  reflexivity.
Defined.

(** A [VecStorage<S>] of well-formed chunks has [len()] equal to the
    number of chunks times [S::SIZE_U], and its slice is the chunks laid
    end to end. *)
Theorem vec_storage_len {T : Type} s (cs : list (val T)) :
  forallb (has_shape s) cs = true ->
  blen (VecStorage s cs) = length cs * SIZE_U s
  /\ as_slice (VecStorage s cs) = concat (map repr cs).
Proof.
  intros H. simpl. rewrite vec_borrow_concat by done. split; [|done].
  clear -H. induction cs as [|c cs IH]; simpl; [done|]. simpl in H.
  apply andb_prop in H as [Hc H]. rewrite length_app, (has_shape_repr_length _ _ Hc), IH by done.
  lia.
Qed.

Lemma vec_storage_len_witness :
  forallb (has_shape (ArrayStorage Entry 2)) [VArray [VEntry 1; VEntry 2]; VArray [VEntry 3; VEntry 4]] = true
  /\ blen (VecStorage (ArrayStorage Entry 2) [VArray [VEntry 1; VEntry 2]; VArray [VEntry 3; VEntry 4]]) = 2 * SIZE_U (ArrayStorage Entry 2).
Proof. split; [reflexivity|]. apply (vec_storage_len (ArrayStorage Entry 2) [VArray [VEntry 1; VEntry 2]; VArray [VEntry 3; VEntry 4]]). reflexivity. Defined.

(** [ArrayStorage::default] collects the endless [iter::repeat]: whatever
    the number [m > S::SIZE * N] of items it gets to pull, it panics with
    "stack storage full"; it never returns. *)
Theorem array_default_full {T : Type} s N (d : T) m :
  SIZE_U (ArrayStorage s N) < m -> array_default s N d m = Panic "stack storage full".
Proof.
  intros Hm. unfold array_default, from_iter. apply stack_from_iter_long.
  rewrite length_replicate. done.
Qed.

Lemma array_default_full_witness :
  SIZE_U (ArrayStorage Entry 3) < 4 /\ array_default Entry 3 0 4 = Panic "stack storage full".
Proof. split; [vm_compute; lia|]. apply array_default_full. vm_compute. lia. Defined.



(** [Permutation::new] accepts a well-formed storage exactly when the
    entries of its slice are pairwise distinct and all below its [len()];
    otherwise it returns [None]. *)
Theorem perm_new_accepts (s : buffer nat) :
  wf_buffer s = true ->
  (perm_new s = Some s <-> NoDup (as_slice s) /\ Forall (fun v => v < blen s) (as_slice s))
  /\ (perm_new s = None <-> ~ (NoDup (as_slice s) /\ Forall (fun v => v < blen s) (as_slice s))).
Proof.
  intros Hwf. rewrite perm_new_spec by done. case_decide; split; split; done.
Qed.

Lemma perm_new_accepts_witness :
  wf_buffer (Stack (ArrayStorage Entry 3) (VArray [VEntry 0; VEntry 2; VEntry 0])) = true
  /\ (perm_new (Stack (ArrayStorage Entry 3) (VArray [VEntry 0; VEntry 2; VEntry 0])) = None
      <-> ~ (NoDup [0; 2; 0] /\ Forall (fun v => v < 3) [0; 2; 0])).
Proof.
  split; [reflexivity|].
  apply (perm_new_accepts (Stack (ArrayStorage Entry 3) (VArray [VEntry 0; VEntry 2; VEntry 0]))).
  reflexivity.
Defined.

(** [Permutation::identity] of a [PermutationS<N>], at its size [N]:
    entry [i] is [i], and [Permutation::new] accepts it. *)
Theorem identity_s_perm N :
  exists r, identity_s N N = Ok r /\ as_slice r = seq 0 N /\ blen r = N /\ perm_new r = Some r.
Proof.
  unfold identity_s. cbn [from_iter].
  destruct (stack_from_iter_exact (ArrayStorage Entry N) (seq 0 N)) as (v & Hv & Hsv & Hrv).
  { rewrite length_seq, SIZE_U_Array. unfold SIZE_U at 1. simpl. lia. }
  rewrite Hv. eexists. split; [reflexivity|].
  assert (Hsl : as_slice (Stack (ArrayStorage Entry N) v) = seq 0 N)
    by (rewrite as_slice_stack by done; done).
  split; [done|]. split; [done|].
  rewrite perm_new_spec by done. rewrite decide_True; [done|].
  rewrite Hsl. split; [apply NoDup_seq|]. apply Forall_seq. simpl. lia.
Qed.

(** [Permutation::identity] of a [PermutationD]: entry [i] is [i], its
    [len()] is the size, and [Permutation::new] accepts it. *)
Theorem identity_d_perm n :
  exists r, identity_d n = Ok r /\ as_slice r = seq 0 n /\ blen r = n /\ perm_new r = Some r.
Proof.
  unfold identity_d, vec_from_iter.
  assert (H1 : SIZE_U Entry = 1) by reflexivity.
  rewrite decide_False by lia.
  destruct (vec_loop_whole Entry n (seq 0 n) (S (length (seq 0 n)))) as (cs & Hcs & Hall & Hcat).
  { lia. }
  { rewrite length_seq. lia. }
  { rewrite length_seq. lia. }
  rewrite Hcs. simpl snd. eexists. split; [reflexivity|].
  assert (Hsh : forallb (has_shape Entry) cs = true).
  { clear -Hall. induction Hall as [|g c gs cs' [Hg Hc] _ IH]; [done|]. cbn [forallb].
    destruct (stack_from_iter_exact Entry g Hg) as (v & Hv & Hsv & _).
    rewrite Hc in Hv. injection Hv as <-. rewrite Hsv, IH. done. }
  assert (Hsl : as_slice (VecStorage Entry cs) = seq 0 n).
  { simpl. rewrite vec_borrow_concat by done. rewrite <- Hcat. apply (f_equal (@concat nat)).
    apply map_ext_in. intros c Hc. apply (proj1 (forallb_forall (has_shape Entry) cs) Hsh) in Hc.
    destruct (has_shape_traversals _ _ Hc) as [-> _]. done. }
  assert (Hlen : blen (VecStorage Entry cs) = n)
    by (change (length (as_slice (VecStorage Entry cs)) = n); rewrite Hsl; apply length_seq).
  split; [done|]. split; [done|].
  rewrite perm_new_spec by done. rewrite decide_True; [done|].
  rewrite Hsl, Hlen. split; [apply NoDup_seq|]. apply Forall_seq. simpl. lia.
Qed.

(** [Permutation::compose(p, q)] into a [PermutationS<N>], for two
    permutations [p] and [q] that [Permutation::new] accepted and whose
    [len()] is the length [N] of their slices: the result is again
    accepted by [Permutation::new], and its entry [i] is [p[q[i]]]. *)
Theorem compose_s_perm N (p q : buffer nat) :
  wf_buffer p = true -> wf_buffer q = true ->
  blen p = N -> length (as_slice p) = N -> blen q = N -> length (as_slice q) = N ->
  perm_new p = Some p -> perm_new q = Some q ->
  exists r, compose_s N p q = Ok r /\ blen r = N /\ perm_new r = Some r
    /\ forall i, i < N -> exists j, index q i = Ok j /\ index r i = index p j.
Proof.
  intros Hwp Hwq Hbp Hlp Hbq Hlq Hp Hq.
  rewrite perm_new_spec in Hp by done. case_decide as Hp'; [|discriminate]. clear Hp.
  rewrite perm_new_spec in Hq by done. case_decide as Hq'; [|discriminate]. clear Hq.
  destruct Hp' as [Hnp Hfp]. destruct Hq' as [Hnq Hfq]. rewrite Hbp in Hfp. rewrite Hbq in Hfq.
  set (ps := as_slice p) in *. set (qs := as_slice q) in *.
  assert (Hq_lt : forall i, i < N -> qs !!! i < N).
  { intros i Hi. apply (Forall_lookup_1 (fun v => v < N) qs i); [exact Hfq|].
    apply list_lookup_lookup_total_lt. lia. }
  assert (Hp_lt : forall j, j < N -> ps !!! j < N).
  { intros j Hj. apply (Forall_lookup_1 (fun v => v < N) ps j); [exact Hfp|].
    apply list_lookup_lookup_total_lt. lia. }
  set (f := fun i => ps !!! (qs !!! i)).
  assert (Hentry : forall i, i < N -> compose_entry p q i = Ok (f i)).
  { intros i Hi. unfold compose_entry. rewrite index_slice. fold qs.
    rewrite list_lookup_lookup_total_lt by lia. rewrite index_slice. fold ps.
    rewrite list_lookup_lookup_total_lt by (specialize (Hq_lt i Hi); lia). done. }
  assert (Hitems : map (compose_entry p q) (seq 0 (blen p)) = map Ok (map f (seq 0 N))).
  { rewrite Hbp, map_map. apply map_ext_in. intros i Hi. apply in_seq in Hi.
    apply Hentry. lia. }
  unfold compose_s. rewrite Hitems, stack_from_iter_lazy_ok.
  destruct (stack_from_iter_exact (ArrayStorage Entry N) (map f (seq 0 N))) as (v & Hv & Hsv & Hrv).
  { rewrite length_map, length_seq, SIZE_U_Array. unfold SIZE_U at 1. simpl. lia. }
  rewrite Hv. eexists. split; [reflexivity|]. split; [done|].
  assert (Hsl : as_slice (Stack (ArrayStorage Entry N) v) = map f (seq 0 N))
    by (rewrite as_slice_stack by done; done).
  split.
  - rewrite perm_new_spec by done. rewrite decide_True; [done|]. rewrite Hsl. split.
    + apply (NoDup_fmap_2_strong f); [|apply NoDup_seq].
      intros x y Hx Hy Hxy. apply elem_of_seq in Hx, Hy.
      assert (Hab : qs !!! x = qs !!! y).
      { apply (NoDup_lookup ps _ _ (f x) Hnp).
        - apply list_lookup_lookup_total_lt. specialize (Hq_lt x ltac:(lia)). lia.
        - rewrite Hxy. apply list_lookup_lookup_total_lt. specialize (Hq_lt y ltac:(lia)). lia. }
      apply (NoDup_lookup qs _ _ (qs !!! x) Hnq).
      * apply list_lookup_lookup_total_lt. lia.
      * rewrite Hab. apply list_lookup_lookup_total_lt. lia.
    + change (Forall (fun v => v < N) (f <$> seq 0 N)). apply Forall_fmap.
      apply Forall_seq. intros i Hi. simpl. apply Hp_lt, Hq_lt. lia.
  - intros i Hi. exists (qs !!! i). split.
    + rewrite index_slice. fold qs. rewrite list_lookup_lookup_total_lt by lia. done.
    + rewrite !index_slice. rewrite Hsl. fold ps.
      rewrite list_lookup_fmap, lookup_seq_lt by done. simpl.
      rewrite list_lookup_lookup_total_lt by (specialize (Hq_lt i Hi); lia). done.
Qed.

Lemma compose_s_perm_witness :
  exists r, compose_s 4 (Stack (ArrayStorage Entry 4) (VArray [VEntry 0; VEntry 2; VEntry 1; VEntry 3]))
                        (Stack (ArrayStorage Entry 4) (VArray [VEntry 0; VEntry 2; VEntry 1; VEntry 3])) = Ok r
    /\ blen r = 4 /\ perm_new r = Some r
    /\ forall i, i < 4 -> exists j,
         index (Stack (ArrayStorage Entry 4) (VArray [VEntry 0; VEntry 2; VEntry 1; VEntry 3])) i = Ok j
         /\ index r i = index (Stack (ArrayStorage Entry 4) (VArray [VEntry 0; VEntry 2; VEntry 1; VEntry 3])) j.
Proof.
  apply compose_s_perm; vm_compute; reflexivity.
Defined.

(** [Permutation::compose_mut_rhs(self, p)] writes [self[v]] over every
    entry [v] of [p], reading each entry of [p] before it is overwritten;
    it panics with "index out of bounds" when some entry of [p] is not an
    index of [self]. *)
Theorem compose_mut_rhs_map (self p : buffer nat) :
  wf_buffer p = true ->
  compose_mut_rhs self p
  = match mapM (fun v => as_slice self !! v) (as_slice p) with
    | Some l => Ok l
    | None => Panic "index out of bounds"
    end.
Proof.
  intros Hwp. unfold compose_mut_rhs.
  pose proof (iter_mut_calls_slice p 1 Hwp) as Hit.
  replace (length (as_slice p) + 1) with (S (length (as_slice p))) in Hit by lia.
  rewrite Hit, take_some_slice.
  exact (compose_mut_loop_seq self (length (as_slice p)) [] (as_slice p) eq_refl).
Qed.

Lemma compose_mut_rhs_map_witness :
  wf_buffer (VecStorage Entry [VEntry 1; VEntry 2; VEntry 0]) = true
  /\ compose_mut_rhs (Stack (ArrayStorage Entry 3) (VArray [VEntry 2; VEntry 0; VEntry 1]))
       (VecStorage Entry [VEntry 1; VEntry 2; VEntry 0])
     = match mapM (fun v => as_slice (Stack (ArrayStorage Entry 3) (VArray [VEntry 2; VEntry 0; VEntry 1])) !! v)
              (as_slice (VecStorage Entry [VEntry 1; VEntry 2; VEntry 0])) with
       | Some l => Ok l
       | None => Panic "index out of bounds"
       end.
Proof. split; [reflexivity|]. apply compose_mut_rhs_map. reflexivity. Defined.

(** [transmute_buffer] there and back: from [src] to a type [dst] of the
    same [SIZE] and back to [src] returns the original value, and drops
    nothing on the way. *)
Theorem transmute_round_trip {T : Type} size_of_T align_of_T src dst (v : val T) :
  0 < align_of_T -> Nat.divide align_of_T size_of_T -> has_shape src v = true ->
  SIZE src = SIZE dst ->
  exists w, transmute_buffer size_of_T align_of_T src dst v = (Ok w, [])
    /\ transmute_buffer size_of_T align_of_T dst src w = (Ok v, []).
Proof.
  intros Ha Hd Hv Hs.
  destruct (transmute_buffer_ok size_of_T align_of_T src dst v Ha Hd Hv Hs) as (w & Hw & Hsw & Hrw).
  destruct (transmute_buffer_ok size_of_T align_of_T dst src w Ha Hd Hsw (eq_sym Hs))
    as (v' & Hv' & Hsv' & Hrv').
  exists w. split; [done|]. rewrite Hv'. do 2 f_equal.
  apply reinterpret_repr in Hsv', Hv. rewrite Hrv', Hrw, Hv in Hsv'. congruence.
Qed.

Lemma transmute_round_trip_witness :
  exists w, transmute_buffer 8 8 (Join (ArrayStorage Entry 2) Entry) (ArrayStorage Entry 3)
              (VJoin (VArray [VEntry 1; VEntry 2]) (VEntry 3)) = (Ok w, [])
    /\ transmute_buffer 8 8 (ArrayStorage Entry 3) (Join (ArrayStorage Entry 2) Entry) w
       = (Ok (VJoin (VArray [VEntry 1; VEntry 2]) (VEntry 3)), []).
Proof.
  apply transmute_round_trip; [lia|exists 1; reflexivity|reflexivity|reflexivity].
Defined.

(** [compose_mut_rhs(self, p)] on two permutations of length [N] accepted
    by [Permutation::new]: it does not panic, and [p] is left holding a
    permutation again (distinct entries below [N]), whose entry [i] is
    [self[p[i]]]. *)
Theorem compose_mut_rhs_perm N (self p : buffer nat) :
  wf_buffer self = true -> wf_buffer p = true ->
  blen self = N -> length (as_slice self) = N -> blen p = N -> length (as_slice p) = N ->
  perm_new self = Some self -> perm_new p = Some p ->
  exists l, compose_mut_rhs self p = Ok l /\ length l = N
    /\ NoDup l /\ Forall (fun v => v < N) l
    /\ forall i, i < N -> exists j, index p i = Ok j /\ Ok <$> l !! i = Some (index self j).
Proof.
  intros Hws Hwp Hbs Hls Hbp Hlp Hs Hp.
  rewrite perm_new_spec in Hs by done. case_decide as Hs'; [|discriminate]. clear Hs.
  rewrite perm_new_spec in Hp by done. case_decide as Hp'; [|discriminate]. clear Hp.
  destruct Hs' as [Hns Hfs]. destruct Hp' as [Hnp Hfp]. rewrite Hbs in Hfs. rewrite Hbp in Hfp.
  rewrite compose_mut_rhs_map by done.
  rewrite mapM_lookup_total by (rewrite Hls; done).
  eexists. split; [reflexivity|].
  rewrite length_map. split; [done|].
  destruct (compose_lists N (as_slice self) (as_slice p) Hls Hns Hfs Hnp Hfp) as [Hnd Hf].
  split; [done|]. split; [done|].
  intros i Hi. exists (as_slice p !!! i). split.
  - rewrite index_slice, list_lookup_lookup_total_lt by lia. done.
  - rewrite list_lookup_fmap, list_lookup_lookup_total_lt by lia. simpl.
    rewrite index_slice, list_lookup_lookup_total_lt; [done|].
    rewrite Hls. apply (Forall_lookup_1 (fun v => v < N) (as_slice p) i); [exact Hfp|].
    apply list_lookup_lookup_total_lt. lia.
Qed.

Lemma compose_mut_rhs_perm_witness :
  exists l, compose_mut_rhs (Stack (ArrayStorage Entry 3) (VArray [VEntry 2; VEntry 0; VEntry 1]))
              (VecStorage Entry [VEntry 1; VEntry 2; VEntry 0]) = Ok l /\ length l = 3
    /\ NoDup l /\ Forall (fun v => v < 3) l
    /\ forall i, i < 3 -> exists j, index (VecStorage Entry [VEntry 1; VEntry 2; VEntry 0]) i = Ok j
         /\ Ok <$> l !! i = Some (index (Stack (ArrayStorage Entry 3) (VArray [VEntry 2; VEntry 0; VEntry 1])) j).
Proof. apply compose_mut_rhs_perm; vm_compute; reflexivity. Defined.

(** [Permutation::parity] of the identity permutation is [Even]: every
    cycle has length 1. *)
Theorem parity_identity (self : buffer nat) N :
  blen self = N -> as_slice self = seq 0 N -> parity self = Some (Ok Parity.Even).
Proof.
  intros Hb Hs. unfold parity. rewrite Hb.
  assert (Hgen : forall n k, k + n = N ->
    parity_loop self (seq k n) (map (fun x => bool_decide (x < k)) (seq 0 N)) Parity.Even
    = Some (Ok Parity.Even)).
  { induction n as [|n IH]; intros k Hkn; [done|]. cbn [seq].
    rewrite parity_loop_fixed.
    - rewrite marks_insert by lia. rewrite <- (IH (S k)) by lia. f_equal.
      apply map_ext. intros x. case_decide; [subst x|]; symmetry.
      + apply bool_decide_eq_true_2. lia.
      + apply bool_decide_ext. lia.
    - rewrite marks_lookup, decide_True by lia. rewrite bool_decide_eq_false_2 by lia. done.
    - rewrite Hs. apply lookup_seq_lt. lia. }
  rewrite <- (Hgen N 0) by lia. f_equal.
  apply list_eq. intros x. rewrite marks_lookup. case_decide.
  - rewrite lookup_replicate_2 by done. rewrite bool_decide_eq_false_2 by lia. done.
  - apply lookup_ge_None_2. rewrite length_replicate. lia.
Qed.

(** [Permutation::parity] of a transposition is [Odd]: the identity with
    the entries at [a < b] exchanged (what [swap(a, b)] leaves) has one
    cycle of length 2 and fixed points elsewhere. *)
Theorem parity_transposition (self : buffer nat) N a b :
  blen self = N -> a < b < N -> as_slice self = <[b := a]> (<[a := b]> (seq 0 N)) ->
  parity self = Some (Ok Parity.Odd).
Proof.
  intros Hb Hab Hs. unfold parity. rewrite Hb.
  assert (Hl : length (<[a := b]> (seq 0 N)) = N) by (rewrite length_insert, length_seq; done).
  assert (Hsa : as_slice self !! a = Some b).
  { rewrite Hs, list_lookup_insert_ne by lia. rewrite list_lookup_insert_eq; [done|].
    rewrite length_seq. lia. }
  assert (Hsb : as_slice self !! b = Some a).
  { rewrite Hs, list_lookup_insert_eq; [done|]. lia. }
  assert (Hsx : forall x, x < N -> x <> a -> x <> b -> as_slice self !! x = Some x).
  { intros x Hx Hxa Hxb. rewrite Hs, !list_lookup_insert_ne by lia. apply lookup_seq_lt. done. }
  assert (Hgen : forall n k, k + n = N ->
    parity_loop self (seq k n) (map (fun x => bool_decide (x < k \/ (a < k /\ x = b))) (seq 0 N))
      (if decide (a < k) then Parity.Odd else Parity.Even)
    = Some (Ok Parity.Odd)).
  { induction n as [|n IH]; intros k Hkn.
    - simpl. rewrite decide_True by lia. done.
    - cbn [seq]. destruct (decide (k = b)) as [->|Hkb]; [|destruct (decide (k = a)) as [->|Hka]].
      + (* already marked by the cycle through [a] *)
        cbn [parity_loop]. rewrite marks_lookup, decide_True by lia.
        rewrite bool_decide_eq_true_2 by lia.
        rewrite <- (IH (S b)) by lia. f_equal.
        * apply map_ext. intros x. apply bool_decide_ext. lia.
        * rewrite !decide_True by lia. done.
      + (* the cycle [a -> b -> a] *)
        cbn [parity_loop]. rewrite marks_lookup, decide_True by lia.
        rewrite bool_decide_eq_false_2 by lia.
        rewrite index_slice, Hsa.
        rewrite length_map, length_seq.
        cbn [parity_walk]. rewrite decide_False by lia.
        rewrite list_lookup_insert_ne by lia. rewrite marks_lookup, decide_True by lia.
        rewrite index_slice, Hsb.
        destruct N as [|N']; [lia|]. cbn [parity_walk]. rewrite decide_True by done.
        rewrite decide_True by reflexivity. rewrite decide_False by lia.
        rewrite <- (IH (S a)) by lia. f_equal.
        * rewrite !marks_insert by lia. apply map_ext. intros x.
          destruct (decide (x = b)); [subst x; symmetry; apply bool_decide_eq_true_2; lia|].
          destruct (decide (x = a)); [subst x; symmetry; apply bool_decide_eq_true_2; lia|].
          apply bool_decide_ext. lia.
        * rewrite decide_True by lia. done.
      + (* a fixed point *)
        rewrite parity_loop_fixed.
        * rewrite marks_insert by lia. rewrite <- (IH (S k)) by lia. f_equal.
          -- apply map_ext. intros x. case_decide; [subst x; symmetry|].
             ++ apply bool_decide_eq_true_2. lia.
             ++ apply bool_decide_ext. lia.
          -- destruct (decide (a < k)); destruct (decide (a < S k)); first [done | lia].
        * rewrite marks_lookup, decide_True by lia. rewrite bool_decide_eq_false_2 by lia. done.
        * apply Hsx; lia. }
  rewrite <- (Hgen N 0) by lia. rewrite decide_False by lia. f_equal.
  apply list_eq. intros x. rewrite marks_lookup. case_decide.
  - rewrite lookup_replicate_2 by done. rewrite bool_decide_eq_false_2 by lia. done.
  - apply lookup_ge_None_2. rewrite length_replicate. lia.
Qed.

Lemma parity_identity_witness :
  parity (Stack (ArrayStorage Entry 3) (VArray [VEntry 0; VEntry 1; VEntry 2])) = Some (Ok Parity.Even).
Proof. apply (parity_identity _ 3); reflexivity. Defined.

(** The permutation of the test [compose] of permutation.rs. *)
Lemma parity_transposition_witness :
  parity (Stack (ArrayStorage Entry 4) (VArray [VEntry 0; VEntry 2; VEntry 1; VEntry 3]))
  = Some (Ok Parity.Odd).
Proof. apply (parity_transposition _ 4 1 2); [reflexivity|lia|reflexivity]. Defined.

(** [Permutation::swap(i, j)] (the storage's [swap]) at two indices of a
    permutation accepted by [Permutation::new]: it does not panic, and the
    entries it leaves are again pairwise distinct and below [len()]. *)
Theorem perm_swap_valid (p : buffer nat) i j :
  wf_buffer p = true -> perm_new p = Some p ->
  i < length (as_slice p) -> j < length (as_slice p) ->
  exists mem', swap (get_mut_addr p) (as_slice p) i j = Ok mem'
    /\ length mem' = length (as_slice p)
    /\ NoDup mem' /\ Forall (fun v => v < blen p) mem'.
Proof.
  intros Hw Hp Hi Hj.
  rewrite perm_new_spec in Hp by done. case_decide as Hp'; [|discriminate]. clear Hp.
  destruct Hp' as [Hnd Hf].
  set (l := as_slice p) in *.
  destruct (lookup_lt_is_Some_2 l i Hi) as [x Hx].
  destruct (lookup_lt_is_Some_2 l j Hj) as [y Hy].
  unfold swap, ptr_swap. rewrite !get_mut_addr_slice by done. fold l.
  rewrite !decide_True by done. rewrite Hx, Hy.
  eexists. split; [reflexivity|].
  assert (Hlk : forall k, <[j := x]> (<[i := y]> l) !! k
                          = l !! (if decide (k = j) then i else if decide (k = i) then j else k)).
  { intros k. destruct (decide (k = j)) as [->|Hkj].
    - rewrite list_lookup_insert_eq by (rewrite length_insert; done). done.
    - rewrite list_lookup_insert_ne by done. destruct (decide (k = i)) as [->|Hki].
      + rewrite list_lookup_insert_eq by done. done.
      + rewrite list_lookup_insert_ne by done. done. }
  split; [rewrite !length_insert; done|]. split.
  - apply NoDup_alt. intros k1 k2 v H1 H2. rewrite Hlk in H1, H2.
    pose proof (NoDup_lookup l _ _ v Hnd H1 H2) as He.
    repeat case_decide; lia.
  - apply Forall_lookup. intros k v Hk. rewrite Hlk in Hk.
    apply (Forall_lookup_1 _ _ _ _ Hf Hk).
Qed.

Lemma perm_swap_valid_witness :
  exists mem', swap (get_mut_addr (Stack (ArrayStorage Entry 4) (VArray [VEntry 0; VEntry 2; VEntry 1; VEntry 3])))
                 (as_slice (Stack (ArrayStorage Entry 4) (VArray [VEntry 0; VEntry 2; VEntry 1; VEntry 3]))) 0 3 = Ok mem'
    /\ length mem' = 4 /\ NoDup mem' /\ Forall (fun v => v < 4) mem'.
Proof.
  apply (perm_swap_valid (Stack (ArrayStorage Entry 4) (VArray [VEntry 0; VEntry 2; VEntry 1; VEntry 3])) 0 3);
    vm_compute; first [reflexivity | lia].
Defined.

(** [Permutation::parity] of any permutation accepted by
    [Permutation::new] (whose [len()] is the length of its slice) ends
    without panicking: every [while] loop walks a cycle back to its
    start. *)
Theorem parity_total (self : buffer nat) N :
  wf_buffer self = true -> blen self = N -> length (as_slice self) = N ->
  perm_new self = Some self ->
  exists par, parity self = Some (Ok par).
Proof.
  intros Hw Hb Hl Hp.
  rewrite perm_new_spec in Hp by done. case_decide as Hp'; [|discriminate]. clear Hp.
  destruct Hp' as [Hnd Hf]. rewrite Hb in Hf.
  set (l := as_slice self) in *.
  set (pi := fun v => l !!! v).
  assert (Hlt : forall x, x < N -> pi x < N).
  { intros x Hx. apply (Forall_lookup_1 (fun v => v < N) l x); [exact Hf|].
    apply list_lookup_lookup_total_lt. lia. }
  assert (Hinj : forall x y, x < N -> y < N -> pi x = pi y -> x = y).
  { intros x y Hx Hy Hxy. apply (NoDup_lookup l _ _ (pi x) Hnd).
    - apply list_lookup_lookup_total_lt. lia.
    - rewrite Hxy. apply list_lookup_lookup_total_lt. lia. }
  assert (Hidx : forall x, x < N -> index self x = Ok (pi x)).
  { intros x Hx. rewrite index_slice. fold l. rewrite list_lookup_lookup_total_lt by lia. done. }
  assert (Hwalk : forall i d, i < N -> Nat.iter d pi i = i ->
    forall fuel k c len, length c = N -> 1 <= k <= d -> d - k < fuel ->
    exists c' len', parity_walk self i fuel c (Nat.iter k pi i) len = Some (Ok (c', len'))
      /\ length c' = N).
  { intros i d Hi Hd. induction fuel as [|fuel IH]; intros k c len Hc Hk Hfu; [lia|].
    cbn [parity_walk]. case_decide as Hki; [eauto|].
    assert (Hkd : k < d) by (destruct (decide (k = d)) as [->|]; [contradiction|lia]).
    assert (Hin : Nat.iter k pi i < N) by (apply iter_lt; done).
    destruct (lookup_lt_is_Some_2 c (Nat.iter k pi i)) as [m Hm]; [lia|]. rewrite Hm.
    rewrite Hidx by done.
    change (pi (Nat.iter k pi i)) with (Nat.iter (S k) pi i).
    apply IH; [rewrite length_insert; done|lia|lia]. }
  assert (Hloop : forall n k c par, length c = N -> k + n = N ->
    exists r, parity_loop self (seq k n) c par = Some (Ok r)).
  { induction n as [|n IH]; intros k c par Hc Hkn; [eexists; reflexivity|].
    cbn [seq parity_loop].
    destruct (lookup_lt_is_Some_2 c k) as [[|] Hm]; [lia| |]; rewrite Hm.
    - apply IH; [done|lia].
    - rewrite Hidx by lia.
      destruct (orbit_returns N pi Hlt Hinj k) as (d & Hd & Hdk); [lia|].
      assert (Hc1 : length (<[k := true]> c) = N) by (rewrite length_insert; done).
      destruct (Hwalk k d ltac:(lia) Hdk (S (length c)) 1 (<[k := true]> c) 1 Hc1
                  ltac:(lia) ltac:(lia)) as (c' & len' & Hwk & Hc').
      change (Nat.iter 1 pi k) with (pi k) in Hwk. rewrite Hwk.
      apply IH; [done|lia]. }
  unfold parity. rewrite Hb. apply Hloop; [apply length_replicate|lia].
Qed.

Lemma parity_total_witness :
  exists par, parity (VecStorage Entry [VEntry 2; VEntry 0; VEntry 1; VEntry 4; VEntry 3]) = Some (Ok par).
Proof. apply (parity_total _ 5); reflexivity. Defined.
